(** * Distance-based downsampling of Y-chromosome sequences

    A shallow embedding of [5-cdhit-层次聚类降采样/2_distance_downsample.py]:
    the metadata reader, the priority resolver, [medoid_index],
    [select_at_threshold], [ensure_priority_subset] and the body of [main]
    after the input files are read.  The two SciPy routines the script calls,
    [linkage] and [fcluster], are external: [main] is parameterised by the
    linkage function, and [fcluster] (criterion "distance") is modelled by the
    tree walk of SciPy's [cluster_monocrit].

    Floating-point numbers are modelled by [val]: an exact rational, NaN or
    an infinity ([float("inf")] parses from a distance file).  Rounding is
    not modelled; the margin [1e-6] is the rational 1/1000000. *)

From Stdlib Require Import QArith Qminmax Ascii String.
From stdpp Require Import base gmap strings list sorting pretty.

Open Scope list_scope.

(** ** Values of the distance matrix *)

Inductive val :=
| Num (q : Q)
| NaN
| PInf
| NInf.

Definition is_nan (v : val) : bool :=
  match v with NaN => true | _ => false end.

(** [np.isfinite] *)
Definition is_finite (v : val) : bool :=
  match v with Num _ => true | _ => false end.

Definition Qltb (x y : Q) : bool := negb (Qle_bool y x).

(** Float addition: NaN is absorbing, [inf + (-inf)] is NaN, an infinity
    absorbs the finite values. *)
Definition vadd (a b : val) : val :=
  match a, b with
  | Num x, Num y => Num (x + y)
  | NaN, _ | _, NaN => NaN
  | PInf, NInf | NInf, PInf => NaN
  | PInf, _ | _, PInf => PInf
  | NInf, _ | _, NInf => NInf
  end.

(** [a < b] on two floats that are not NaN (false when one is NaN). *)
Definition vlt (a b : val) : bool :=
  match a, b with
  | Num x, Num y => Qltb x y
  | NInf, Num _ | NInf, PInf | Num _, PInf => true
  | _, _ => false
  end.

(** A square matrix as its list of rows ([np.ndarray] of shape (n, n)). *)
Definition matrix := list (list val).

(** [full_matrix[i, j]]; the source only indexes inside the matrix. *)
Definition mat_get (m : matrix) (i j : nat) : val :=
  match m !! i with
  | Some row => match row !! j with Some v => v | None => Num 0 end
  | None => Num 0
  end.

(** ** Metadata reader ([read_meta]) *)

(** Python's [str.isspace] on one character, a code point below 256:
    [\t\n\v\f\r], the separators U+001C to U+001F, the space, U+0085 and
    the no-break space U+00A0. *)
Definition is_space (c : ascii) : bool :=
  let n := Ascii.nat_of_ascii c in
  ((9 <=? n) && (n <=? 13)) || ((28 <=? n) && (n <=? 32)) || (n =? 133) || (n =? 160).

Definition flush (cur : list ascii) (rest : list string) : list string :=
  match cur with
  | [] => rest
  | _ => String.string_of_list_ascii (rev cur) :: rest
  end.

Fixpoint split_go (s : string) (cur : list ascii) : list string :=
  match s with
  | EmptyString => flush cur []
  | String c s' =>
      if is_space c then flush cur (split_go s' []) else split_go s' (c :: cur)
  end.

(** [str.split()] without argument: split on runs of whitespace, no empty
    fields. *)
Definition split_ws (s : string) : list string := split_go s [].

Fixpoint lstrip_l (l : list ascii) : list ascii :=
  match l with
  | c :: l' => if is_space c then lstrip_l l' else l
  | [] => []
  end.

(** [str.strip()]. *)
Definition strip (s : string) : string :=
  String.string_of_list_ascii
    (rev (lstrip_l (rev (lstrip_l (String.list_ascii_of_string s))))).

Inductive err :=
| MetaEmpty          (* ValueError: metadata file is empty or malformed *)
| PriorityExceeds    (* ValueError raised by ensure_priority_subset *)
| DistNaN            (* ValueError: distance matrix contains NaN values *)
| LinkageInput.      (* ValueError raised by SciPy's linkage on its input *)

(** One iteration of the loop of [read_meta]. *)
Definition meta_line (mapping : gmap string string) (line : string)
  : gmap string string :=
  let line := strip line in
  if String.eqb line "" then mapping
  else
    match split_ws line with
    | sample_id :: group :: _ => <[sample_id := group]> mapping
    | _ => mapping
    end.

Definition read_meta (lines : list string) : err + gmap string string :=
  let mapping := foldl meta_line ∅ lines in
  if decide (mapping = ∅) then inl MetaEmpty else inr mapping.

(** ** Priority resolver *)

(** [base_id]: [label.split("_", 1)[0]], the part before the first
    underscore (the whole label when there is none). *)
Fixpoint base_id (label : string) : string :=
  match label with
  | EmptyString => EmptyString
  | String c s => if Ascii.eqb c "_"%char then EmptyString else String c (base_id s)
  end.

(** [priority_ids = {sid for sid, grp in meta_map.items() if grp == priority_group}] *)
Definition priority_ids (meta_map : gmap string string) (priority_group : string)
  : gset string :=
  dom (filter (λ kv : string * string, kv.2 = priority_group) meta_map).

(** [required_mask]: [required_mask[i]] is true exactly for the indices listed
    in [required_indices], i.e. when [base_id(names[i])] is a priority id. *)
Definition required_mask (names : list string) (pids : gset string) : list bool :=
  map (λ name, bool_decide (base_id name ∈ pids)) names.

(** [required_indices = [idx for idx, name in enumerate(names) if base_id(name) in priority_ids]] *)
Definition required_indices (names : list string) (pids : gset string) : list nat :=
  List.filter (λ idx, bool_decide (base_id (nth idx names "") ∈ pids))
    (seq 0 (length names)).

(** ** [medoid_index] *)

(** [sub.sum(axis=1)] for the row of member [a]: the sum of
    [full_matrix[a, b]] over all members [b], [a] itself included. *)
Definition row_sum (full_matrix : matrix) (indices : list nat) (a : nat) : val :=
  foldl vadd (Num 0) (map (mat_get full_matrix a) indices).

Fixpoint find_nan (l : list val) (i : nat) : option nat :=
  match l with
  | [] => None
  | NaN :: _ => Some i
  | _ :: l' => find_nan l' (S i)
  end.

Fixpoint argmin_go (l : list val) (i best : nat) (bv : val) : nat :=
  match l with
  | [] => best
  | v :: l' => if vlt v bv then argmin_go l' (S i) i v else argmin_go l' (S i) best bv
  end.

(** [np.argmin]: the first NaN if there is one, else the first position of
    the minimum. *)
Definition argmin (l : list val) : nat :=
  match find_nan l 0 with
  | Some i => i
  | None =>
      match l with
      | v :: l' => argmin_go l' 1 0 v
      | [] => 0
      end
  end.

Definition medoid_index (full_matrix : matrix) (indices : list nat) : nat :=
  match indices with
  | [i] => i
  | _ =>
      let sums := map (row_sum full_matrix indices) indices in
      nth (argmin sums) indices 0
  end.

(** ** [select_at_threshold] *)

Record cluster_record := {
  cluster_id : Z;
  size : nat;
  required_count : nat;
  selected_ids : list string
}.

(** [clusters[int(cluster_id)].append(idx)] on a [defaultdict(list)]; the
    dictionary keeps its keys in order of first insertion. *)
Fixpoint add_member (cid : Z) (idx : nat) (clusters : list (Z * list nat))
  : list (Z * list nat) :=
  match clusters with
  | [] => [(cid, [idx])]
  | (c, ms) :: rest =>
      if Z.eqb c cid then (c, ms ++ [idx]) :: rest
      else (c, ms) :: add_member cid idx rest
  end.

(** [for idx, cluster_id in enumerate(cluster_labels)] *)
Definition group_clusters (cluster_labels : list Z) : list (Z * list nat) :=
  foldl (λ acc ic, add_member ic.2 ic.1 acc) []
    (zip (seq 0 (length cluster_labels)) cluster_labels).

(** [required_mask[i]]; the mask has one entry per item. *)
Definition is_required (mask : list bool) (i : nat) : bool :=
  default false (mask !! i).

(** The body of the loop over [clusters.items()]: the retained indices
    [kept] and the cluster's record. *)
Definition process_cluster (names : list string) (dist_matrix : matrix)
    (mask : list bool) (c : Z * list nat) : list nat * cluster_record :=
  let '(cid, members) := c in
  let required_in_cluster := List.filter (is_required mask) members in
  let kept :=
    match required_in_cluster with
    | [] => [medoid_index dist_matrix members]
    | _ => required_in_cluster
    end in
  (kept, {| cluster_id := cid;
            size := length members;
            required_count := length required_in_cluster;
            selected_ids := map (λ i, nth i names "") kept |}).

Definition record_le (a b : cluster_record) : Prop := (cluster_id a <= cluster_id b)%Z.

#[global] Instance record_le_dec : RelDecision record_le.
Proof. intros a b. unfold record_le. apply _. Defined.

(** [select_at_threshold] after the call to [fcluster], for the labels
    [cluster_labels] it returned. *)
Definition select_from_labels (cluster_labels : list Z) (names : list string)
    (dist_matrix : matrix) (mask : list bool) : list nat * list cluster_record :=
  let clusters := group_clusters cluster_labels in
  let '(selected, cluster_records) :=
    foldl (λ acc c, let '(kept, r) := process_cluster names dist_matrix mask c in
                    (acc.1 ++ kept, acc.2 ++ [r]))
      ([], []) clusters in
  let selected_unique : gset nat := list_to_set selected in
  let selected_ordered :=
    List.filter (λ idx, bool_decide (idx ∈ selected_unique)) (seq 0 (length names)) in
  (* [cluster_records.sort(key=lambda rec: rec["cluster_id"])]: a stable sort *)
  (selected_ordered, merge_sort record_le cluster_records).

(** ** SciPy: [squareform], [fcluster] and average [linkage] *)

(** [squareform(X, checks=False)] on a square matrix: the strict upper
    triangle, row by row. *)
Definition squareform (X : matrix) : list val :=
  let d := length X in
  flat_map (λ i, map (λ j, mat_get X i j) (seq (S i) (d - S i))) (seq 0 d).

(** A row [Z[k] = (left, right, height, count)] of a linkage matrix. *)
Record zrow := { zl : nat; zr : nat; zh : Q; zc : nat }.

(** The dendrogram of a linkage matrix over [n] observations: node [i < n]
    is observation [i], node [n + k] is the merge of row [k]. *)
Inductive dtree :=
| Leaf (i : nat)
| Node (l r : dtree) (h : Q).

Fixpoint build_tree (fuel n : nat) (Zm : list zrow) (id : nat) : dtree :=
  match fuel with
  | O => Leaf id
  | S f =>
      if id <? n then Leaf id
      else match Zm !! (id - n) with
           | Some row => Node (build_tree f n Zm (zl row)) (build_tree f n Zm (zr row)) (zh row)
           | None => Leaf id
           end
  end.

(** [get_max_dist_for_each_cluster]: the largest merge height in a subtree. *)
Fixpoint max_dist (tr : dtree) : Q :=
  match tr with
  | Leaf _ => 0
  | Node l r h =>
      let ml := match l with Leaf _ => h | Node _ _ _ => Qmax h (max_dist l) end in
      let mr := match r with Leaf _ => h | Node _ _ _ => Qmax h (max_dist r) end in
      Qmax ml mr
  end.

(** [cluster_monocrit] with the maximal distances as criterion: a walk from
    the root that opens a new flat cluster at the first node whose maximal
    distance is [<= t]; below a node, the internal children are visited
    (left, then right) before the leaf children are labelled; a leaf outside
    every open cluster gets a cluster of its own.  [nc] is [n_cluster]. *)
Fixpoint cut (t : Q) (leader : option Z) (tr : dtree) (nc : Z) : list (nat * Z) * Z :=
  match tr with
  | Leaf i =>
      match leader with
      | Some c => ([(i, c)], nc)
      | None => ([(i, (nc + 1)%Z)], (nc + 1)%Z)
      end
  | Node l r _ =>
      let '(ld, nc0) :=
        match leader with
        | Some c => (Some c, nc)
        | None => if Qle_bool (max_dist tr) t then (Some (nc + 1)%Z, (nc + 1)%Z) else (None, nc)
        end in
      let '(a1, nc1) := match l with Node _ _ _ => cut t ld l nc0 | Leaf _ => ([], nc0) end in
      let '(a2, nc2) := match r with Node _ _ _ => cut t ld r nc1 | Leaf _ => ([], nc1) end in
      let '(a3, nc3) := match l with Leaf _ => cut t ld l nc2 | Node _ _ _ => ([], nc2) end in
      let '(a4, nc4) := match r with Leaf _ => cut t ld r nc3 | Node _ _ _ => ([], nc3) end in
      (a1 ++ a2 ++ a3 ++ a4, nc4)
  end.

Fixpoint assoc_label (asg : list (nat * Z)) (i : nat) : Z :=
  match asg with
  | [] => 0
  | (j, c) :: rest => if Nat.eqb i j then c else assoc_label rest i
  end.

(** [fcluster(Z, t=threshold, criterion="distance")]: one label per
    observation, [n = Z.shape[0] + 1]; [T] starts as zeros. *)
Definition fcluster (Zm : list zrow) (t : Q) : list Z :=
  let n := length Zm + 1 in
  let asg := (cut t None (build_tree n n Zm (n + length Zm - 1)) 0%Z).1 in
  map (assoc_label asg) (seq 0 n).

(** The number of observations of a condensed matrix of length [k]. *)
Definition num_obs (k : nat) : nat :=
  default 0 (List.find (λ n, Nat.eqb (n * (n - 1) / 2) k) (seq 0 (k + 2))).

Definition cond_get (c : list val) (n i j : nat) : Q :=
  let a := Nat.min i j in
  let b := Nat.max i j in
  match c !! (n * a - a * (a + 1) / 2 + (b - a - 1)) with
  | Some (Num q) => q
  | _ => 0
  end.

(** The average-linkage (UPGMA) distance between two clusters. *)
Definition avg_dist (c : list val) (n : nat) (A B : list nat) : Q :=
  (foldl Qplus 0 (flat_map (λ a, map (λ b, cond_get c n a b) B) A)
  / inject_Z (Z.of_nat (length A * length B)))%Q.

Fixpoint pairs {A} (l : list A) : list (A * A) :=
  match l with
  | [] => []
  | x :: r => map (λ y, (x, y)) r ++ pairs r
  end.

Definition best_pair (c : list val) (n : nat) (act : list (nat * list nat))
  : option ((nat * list nat) * (nat * list nat)) :=
  foldl (λ best p,
           match best with
           | None => Some p
           | Some b => if Qltb (avg_dist c n p.1.2 p.2.2) (avg_dist c n b.1.2 b.2.2)
                       then Some p else best
           end) None (pairs act).

Fixpoint agglomerate (fuel : nat) (c : list val) (n next : nat)
    (act : list (nat * list nat)) : list zrow :=
  match fuel with
  | O => []
  | S f =>
      match best_pair c n act with
      | None => []
      | Some ((i, A), (j, B)) =>
          {| zl := Nat.min i j; zr := Nat.max i j; zh := avg_dist c n A B;
             zc := length A + length B |}
          :: agglomerate f c n (S next)
               (List.filter (λ x, negb (Nat.eqb x.1 i || Nat.eqb x.1 j)) act
                ++ [(next, A ++ B)])
      end
  end.

(** [linkage(condensed, method="average")], by the naive agglomeration: for
    inputs without tied cluster distances it yields the matrix SciPy
    returns (rows by increasing height, smaller node id first).  It is
    applied only to the inputs SciPy accepts (see [linkage_rejects]). *)
Definition linkage_average (condensed : list val) : list zrow :=
  let n := num_obs (length condensed) in
  agglomerate (n - 1) condensed n n (map (λ i, (i, [i])) (seq 0 n)).

(** [select_at_threshold(Z, threshold, names, dist_matrix, required_mask, ...)] *)
Definition select_at_threshold (Zm : list zrow) (threshold : Q) (names : list string)
    (dist_matrix : matrix) (mask : list bool) : list nat * list cluster_record :=
  select_from_labels (fcluster Zm threshold) names dist_matrix mask.

(** ** Candidate thresholds *)

(** Insertion into a strictly increasing list, dropping a value equal to
    one already present. *)
Fixpoint insert_unique (q : Q) (l : list Q) : list Q :=
  match l with
  | [] => [q]
  | x :: l' =>
      if Qltb q x then q :: l
      else if Qeq_bool q x then l
      else x :: insert_unique q l'
  end.

(** [np.unique]: the sorted distinct values. *)
Definition np_unique (l : list Q) : list Q := foldr insert_unique [] l.

(** [condensed[condensed > 0]].  [main] computes it only after [linkage]
    has accepted the vector, whose values are then all finite; the
    infinities, which [linkage] refuses, are left out here. *)
Definition positive_values (condensed : list val) : list Q :=
  omap (λ v, match v with Num q => if Qltb 0 q then Some q else None | _ => None end)
    condensed.

(** [arr.max()] of a non-empty array. *)
Definition list_max (l : list Q) : Q :=
  match l with [] => 0 | x :: r => foldl Qmax x r end.

(** Python's builtin [min(a, b)]. *)
Definition py_min (a b : Q) : Q := if Qltb b a then b else a.

(** The margin [1e-6]. *)
Definition eps : Q := 1 # 1000000.

Definition candidate_thresholds (condensed : list val) (max_threshold : option Q)
  : list Q :=
  let pd := np_unique (positive_values condensed) in
  let positive_distances := match pd with [] => [0%Q] | _ => pd end in
  let max_distance := list_max positive_distances in
  let max_distance :=
    match max_threshold with
    | Some mt => py_min max_distance mt
    | None => max_distance
    end in
  positive_distances ++ [(max_distance + eps)%Q].

(** ** [main] as a computation that records its steps and may raise *)

(** The observable steps of a run: the condensed conversion, the call of
    [linkage] and each call of [select_at_threshold]. *)
Inductive event :=
| EvSquareform
| EvLinkage
| EvSelect (t : Q).

Definition M (A : Type) : Type := (list event * (err + A))%type.

Definition retM {A} (a : A) : M A := ([], inr a).
Definition throwM {A} (e : err) : M A := ([], inl e).
Definition emit (e : event) : M unit := ([e], inr tt).

Definition bindM {A B} (m : M A) (f : A → M B) : M B :=
  match m with
  | (tr, inl e) => (tr, inl e)
  | (tr, inr a) => let (tr', r) := f a in (tr ++ tr', r)
  end.

Notation "'let!' x ':=' m 'in' k" := (bindM m (λ x, k))
  (at level 200, x name, m at level 100, k at level 200).

(** SciPy's [linkage] checks its input before building the dendrogram: it
    raises ValueError when the condensed vector holds a value that is not
    finite ("The condensed distance matrix must contain only finite
    values.") or is empty, i.e. there are fewer than two items ([num_obs_y]:
    "The number of observations cannot be determined on an empty distance
    matrix."). *)
Definition linkage_rejects (condensed : list val) : bool :=
  match condensed with
  | [] => true
  | _ => negb (forallb is_finite condensed)
  end.

Definition ensure_priority_subset (required : list nat) (target : Z) : M unit :=
  if Z.ltb target (Z.of_nat (length required)) then throwM PriorityExceeds else retM tt.

Record outcome := {
  chosen_indices : list nat;
  chosen_records : list cluster_record;
  chosen_threshold : Q
}.

(** The loop [for threshold in candidate_thresholds: ... break]. *)
Fixpoint search (sel : Q → list nat * list cluster_record) (target : Z)
    (cands : list Q) : M (option outcome) :=
  match cands with
  | [] => retM None
  | t :: rest =>
      let! _ := emit (EvSelect t) in
      let '(indices, records) := sel t in
      if Z.leb (Z.of_nat (length indices)) target
      then retM (Some {| chosen_indices := indices; chosen_records := records;
                         chosen_threshold := t |})
      else search sel target rest
  end.

(** [main] from the priority resolution to the chosen selection, for the
    parsed metadata and distance matrix; [linkage] is SciPy's [linkage] for
    the chosen method on the inputs it accepts. *)
Definition main_core (linkage : list val → list zrow) (meta_map : gmap string string)
    (names : list string) (dist_matrix : matrix) (priority_group : string)
    (target : Z) (max_threshold : option Q) : M outcome :=
  let pids := priority_ids meta_map priority_group in
  let req := required_indices names pids in
  let mask := required_mask names pids in
  let! _ := ensure_priority_subset req target in
  let! condensed := (let! _ := emit EvSquareform in retM (squareform dist_matrix)) in
  let! _ := (if existsb is_nan condensed then throwM DistNaN else retM tt) in
  let! Zm := (let! _ := emit EvLinkage in
              if linkage_rejects condensed then throwM LinkageInput
              else retM (linkage condensed)) in
  let cands := candidate_thresholds condensed max_threshold in
  let sel := λ t, select_at_threshold Zm t names dist_matrix mask in
  let! found := search sel target cands in
  match found with
  | Some o => retM o
  | None =>
      (* fallback: the last threshold, even above the target *)
      let t := default 0%Q (last cands) in
      let! _ := emit (EvSelect t) in
      let '(indices, records) := sel t in
      retM {| chosen_indices := indices; chosen_records := records; chosen_threshold := t |}
  end.

(** [main] from the metadata lines on. *)
Definition main_run (linkage : list val → list zrow) (meta_lines : list string)
    (names : list string) (dist_matrix : matrix) (priority_group : string)
    (target : Z) (max_threshold : option Q) : M outcome :=
  match read_meta meta_lines with
  | inl e => throwM e
  | inr meta_map => main_core linkage meta_map names dist_matrix priority_group target max_threshold
  end.

(** ** [read_mldist] *)

Inductive load_err :=
| DistEmpty       (* ValueError: the distance file appears to be empty *)
| BadCount        (* ValueError raised by [int] on the first line *)
| NegativeCount   (* ValueError raised by [np.zeros] on a negative size *)
| Premature       (* ValueError: the file ended before the n-th row *)
| BlankRow        (* ValueError: a blank line where a row starts *)
| ShortRow        (* ValueError: could not gather n distances for a row *)
| BadValue.       (* ValueError raised by the float conversion of a row *)

(** The file is the list of its lines (line terminators are whitespace,
    which the loader strips); running out of lines is end of file.  The
    builtin [int] and the conversion of one field to a float by
    [np.array(..., dtype=float)] are parameters. *)
Section ReadMldist.
Context {F : Type}.
Variable parse_int : string → option Z.
Variable parse_float : string → option F.

(** [while len(values) < n: extra = handle.readline(); ...] *)
Fixpoint gather (n : nat) (values : list string) (lines : list string)
  : option (list string * list string) :=
  if n <=? length values then Some (values, lines)
  else
    match lines with
    | [] => None
    | extra :: rest => gather n (values ++ split_ws (strip extra)) rest
    end.

(** [for i in range(n)]: [k] rows are left to read. *)
Fixpoint read_rows (n k : nat) (lines : list string)
  : load_err + (list string * list (list F)) :=
  match k with
  | O => inr ([], [])
  | S k' =>
      match lines with
      | [] => inl Premature
      | line :: rest =>
          match split_ws (strip line) with
          | [] => inl BlankRow
          | name :: values =>
              match gather n values rest with
              | None => inl ShortRow
              | Some (values, rest) =>
                  match mapM parse_float (take n values) with
                  | None => inl BadValue
                  | Some row =>
                      match read_rows n k' rest with
                      | inl e => inl e
                      | inr (names, rows) => inr (name :: names, row :: rows)
                      end
                  end
              end
          end
      end
  end.

Definition read_mldist (lines : list string) : load_err + (list string * list (list F)) :=
  match lines with
  | [] => inl DistEmpty
  | first :: rest =>
      match parse_int (strip first) with
      | None => inl BadCount
      | Some n =>
          if Z.ltb n 0 then inl NegativeCount
          else read_rows (Z.to_nat n) (Z.to_nat n) rest
      end
  end.

End ReadMldist.

(** ** Output files *)

Definition nl : string := String (Ascii.ascii_of_nat 10) EmptyString.
Definition tab : string := String (Ascii.ascii_of_nat 9) EmptyString.

(** [sep.join(l)] *)
Fixpoint join (sep : string) (l : list string) : string :=
  match l with
  | [] => ""
  | [x] => x
  | x :: r => x +:+ sep +:+ join sep r
  end.

(** [write_ids]: the text written, and whether the loop completed
    ([names[idx]] raises IndexError past the end of [names]). *)
Fixpoint write_ids (indices : list nat) (names : list string) : string * bool :=
  match indices with
  | [] => ("", true)
  | idx :: r =>
      match names !! idx with
      | None => ("", false)
      | Some nm => let '(s, ok) := write_ids r names in (nm +:+ nl +:+ s, ok)
      end
  end.

Definition report_line (rec : cluster_record) : string :=
  pretty (cluster_id rec) +:+ tab +:+ pretty (size rec) +:+ tab +:+
  pretty (required_count rec) +:+ tab +:+ join "," (selected_ids rec) +:+ nl.

Definition report_header : string :=
  "cluster_id" +:+ tab +:+ "size" +:+ tab +:+ "required_count" +:+ tab +:+ "selected_ids" +:+ nl.

(** [write_cluster_report]; [meta_map] and [priority_label] are not read. *)
Definition write_cluster_report (records : list cluster_record)
    (meta_map : gmap string string) (priority_label : string) : string :=
  report_header +:+ foldr String.append "" (map report_line records).

(** A record of the FASTA file as [SeqIO.parse] yields it. *)
Record fasta_record := { rec_id : string; rec_body : string }.

(** [write_fasta_subset]: the records written, in file order, and whether it
    returns without the RuntimeError. *)
Definition write_fasta_subset (records : list fasta_record) (keep_names : list string)
  : list fasta_record * bool :=
  let keep_set : gset string := list_to_set keep_names in
  let written := List.filter (λ r, bool_decide (rec_id r ∈ keep_set)) records in
  (written, Nat.eqb (length written) (stdpp.base.size keep_set)).

(** [required_mask = np.zeros(n, dtype=bool)] followed by
    [required_mask[required_indices] = True], as [main] builds the mask. *)
Definition mask_of_indices (n : nat) (indices : list nat) : list bool :=
  foldl (λ m idx, <[idx := true]> m) (replicate n false) indices.

(** ** Vocabulary of the properties *)

(** [line.strip().split()]: the whitespace-separated fields of a line. *)
Definition fields (line : string) : list string := split_ws (strip line).

(** A line records [sid] when it has two or more fields, the first [sid]. *)
Definition records_sid (sid : string) (line : string) : Prop :=
  match fields line with
  | s :: _ :: _ => s = sid
  | _ => False
  end.

(** The distance [full_matrix[i, j]] as a number (NaN and the infinities
    read as 0; used only where the entries are known to be finite). *)
Definition qget (m : matrix) (i j : nat) : Q :=
  match mat_get m i j with Num q => q | _ => 0%Q end.

(** The spec's medoid criterion: the sum of the distances from [x] to the
    other members of the cluster, read in the full matrix. *)
Definition sum_to_others (m : matrix) (members : list nat) (x : nat) : Q :=
  foldr Qplus 0%Q (map (qget m x) (List.filter (λ y, negb (Nat.eqb y x)) members)).

(** Concrete inputs used to exercise the properties. *)
Definition mat2 : matrix := [[Num 0; Num 1]; [Num 1; Num 0]].
Definition nan_upper : matrix := [[Num 0; NaN]; [NaN; Num 0]].
Definition nan_lower : matrix := [[Num 0; Num 1]; [NaN; Num 0]].
Definition mat3 : matrix :=
  [[Num 0; Num 1; Num 5]; [Num 1; Num 0; Num 5]; [Num 5; Num 5; Num 0]].
Definition names2 : list string := ["a"; "b"].
Definition names3 : list string := ["A_1"; "B_1"; "C_1"].
Definition meta_g : gmap string string := {["x" := "G"]}.
Definition meta_a : gmap string string := {["A" := "G"]}.

(** [s.split(sep)] for a one-character separator. *)
Fixpoint split_char_go (c : ascii) (s : string) (cur : list ascii) : list string :=
  match s with
  | EmptyString => [String.string_of_list_ascii (rev cur)]
  | String d s' =>
      if Ascii.eqb d c then String.string_of_list_ascii (rev cur) :: split_char_go c s' []
      else split_char_go c s' (d :: cur)
  end.

Definition split_char (c : ascii) (s : string) : list string := split_char_go c s [].

(** A character does not occur in a string. *)
Definition lacks (c : ascii) (s : string) : Prop := c ∉ String.list_ascii_of_string s.

(** A field of [str.split()]: non-empty and without whitespace. *)
Definition is_token (s : string) : Prop :=
  s ≠ "" ∧ Forall (λ c, is_space c = false) (String.list_ascii_of_string s).

(** A row of a distance file laid out on lines: the name with the first
    values, then continuation lines (each a list of fields). *)
Definition mldist_row_lines (r : string * list string * list (list string)) : list string :=
  join " " (r.1.1 :: r.1.2) :: map (join " ") r.2.

Definition mldist_file (header : string)
    (rows : list (string * list string * list (list string))) : list string :=
  header :: flat_map mldist_row_lines rows.

(** A layout the loader reads as one row of [n] values: all fields are
    tokens, the lines before the last one hold fewer than [n] values, and
    all lines together at least [n]. *)
Definition row_layout (n : nat) (r : string * list string * list (list string)) : Prop :=
  is_token r.1.1 ∧ Forall is_token r.1.2 ∧ Forall (Forall is_token) r.2 ∧
  (r.2 ≠ [] → length (r.1.2 ++ concat (removelast r.2)) < n) ∧
  n ≤ length (r.1.2 ++ concat r.2).

(** A decimal reader of non-negative integers, to exercise the loader. *)
Fixpoint dec_go (s : string) (acc : Z) : option Z :=
  match s with
  | EmptyString => Some acc
  | String c s' =>
      let d := (Z.of_nat (Ascii.nat_of_ascii c) - 48)%Z in
      if (0 <=? d)%Z && (d <=? 9)%Z then dec_go s' (10 * acc + d)%Z else None
  end.

Definition dec_int (s : string) : option Z :=
  match s with EmptyString => None | _ => dec_go s 0 end.

(** The newline and tab characters. *)
Definition nl_char : ascii := Ascii.ascii_of_nat 10.
Definition tab_char : ascii := Ascii.ascii_of_nat 9.

(** The text of a file of lines, each ended by a newline. *)
Definition lines_text (xs : list string) : string := foldr (λ x s, x +:+ nl +:+ s) "" xs.

(** The fields of a line of the cluster report. *)
Definition report_fields (rec : cluster_record) : list string :=
  [pretty (cluster_id rec); pretty (size rec); pretty (required_count rec);
   join "," (selected_ids rec)].

(** * Properties *)

(** ** The metadata reader *)

Section ReadMeta.

Lemma meta_line_fields (m : gmap string string) (line : string) :
  meta_line m line =
    match fields line with
    | sample_id :: group :: _ => <[sample_id := group]> m
    | _ => m
    end.
Proof.
  unfold meta_line, fields.
  destruct (String.eqb (strip line) "") eqn:E; [|reflexivity].
  apply String.eqb_eq in E. rewrite E. reflexivity.
Qed.

Lemma meta_line_short (m : gmap string string) (line : string) :
  length (fields line) < 2 → meta_line m line = m.
Proof.
  intros H. rewrite meta_line_fields.
  destruct (fields line) as [|a [|b l]]; simpl in *; [done | done | lia].
Qed.

Lemma meta_lines_short (m : gmap string string) (lines : list string) :
  (∀ line, line ∈ lines → length (fields line) < 2) → foldl meta_line m lines = m.
Proof.
  revert m. induction lines as [|l ls IH]; intros m H; simpl; [done|].
  rewrite meta_line_short by (apply H; left). apply IH.
  intros line Hin. apply H. by right.
Qed.

Lemma meta_line_is_Some (m : gmap string string) (line k : string) :
  is_Some (m !! k) → is_Some (meta_line m line !! k).
Proof.
  intros Hk. rewrite meta_line_fields.
  destruct (fields line) as [|a [|b l]]; [done|done|].
  destruct (decide (a = k)) as [->|Hne].
  - rewrite lookup_insert_eq. eauto.
  - by rewrite lookup_insert_ne.
Qed.

Lemma meta_lines_is_Some (m : gmap string string) (lines : list string) (k : string) :
  is_Some (m !! k) → is_Some (foldl meta_line m lines !! k).
Proof.
  revert m. induction lines as [|l ls IH]; intros m H; simpl; [done|].
  apply IH. by apply meta_line_is_Some.
Qed.

Lemma meta_lines_other (m : gmap string string) (lines : list string) (sid : string) :
  (∀ line, line ∈ lines → ¬ records_sid sid line) →
  foldl meta_line m lines !! sid = m !! sid.
Proof.
  revert m. induction lines as [|l ls IH]; intros m H; simpl; [done|].
  rewrite IH by (intros line Hin; apply H; by right).
  rewrite meta_line_fields.
  assert (Hl : ¬ records_sid sid l) by (apply H; left).
  unfold records_sid in Hl.
  destruct (fields l) as [|a [|b r]]; [done|done|].
  rewrite lookup_insert_ne; [done|]. intros ->. by apply Hl.
Qed.

End ReadMeta.

(** Claim C10: [read_meta] skips every line with fewer than two
    whitespace-separated fields, the last line recording a sample id gives
    its group, and it raises only when no line has two fields. *)
Theorem read_meta_skips_last_wins_and_fails_only_when_empty :
  (∀ pre line post,
     length (fields line) < 2 → read_meta (pre ++ line :: post) = read_meta (pre ++ post)) ∧
  (∀ pre line post sid group rest m,
     fields line = sid :: group :: rest →
     (∀ l, l ∈ post → ¬ records_sid sid l) →
     read_meta (pre ++ line :: post) = inr m → m !! sid = Some group) ∧
  (∀ lines sid m,
     (∀ l, l ∈ lines → ¬ records_sid sid l) → read_meta lines = inr m → m !! sid = None) ∧
  (∀ lines,
     (∃ e, read_meta lines = inl e) ↔ (∀ l, l ∈ lines → length (fields l) < 2)) ∧
  (∀ lines e, read_meta lines = inl e → e = MetaEmpty).
Proof.
  unfold read_meta. split; [|split; [|split; [|split]]].
  - intros pre line post H. rewrite !foldl_app. simpl.
    by rewrite meta_line_short.
  - intros pre line post sid group rest m Hf Hpost Hm.
    rewrite foldl_app in Hm. simpl in Hm.
    case_decide; [done|]. injection Hm as <-.
    rewrite meta_lines_other by done.
    rewrite meta_line_fields, Hf. apply lookup_insert_eq.
  - intros lines sid m Hl Hm. case_decide; [done|]. injection Hm as <-.
    rewrite meta_lines_other by done. apply lookup_empty.
  - intros lines. split.
    + intros [e He] l Hin. case_decide as Hemp; [|done].
      destruct (decide (length (fields l) < 2)) as [|Hlong]; [done|exfalso].
      apply list_elem_of_split in Hin as (l1 & l2 & ->).
      destruct (fields l) as [|a [|b r]] eqn:Hf; simpl in Hlong; [lia|lia|].
      assert (Hs : is_Some (foldl meta_line ∅ (l1 ++ l :: l2) !! a)).
      { rewrite foldl_app. simpl. apply meta_lines_is_Some.
        rewrite meta_line_fields, Hf, lookup_insert_eq. eauto. }
      rewrite Hemp, lookup_empty in Hs. by destruct Hs.
    + intros H. rewrite meta_lines_short by done. case_decide; [eauto|done].
  - intros lines e. case_decide; congruence.
Qed.

(** ** The selection at one threshold *)

Section Selection.

Context (names : list string) (dist_matrix : matrix) (mask : list bool).

Abbreviation kept_of c := (process_cluster names dist_matrix mask c).1.
Abbreviation record_of c := (process_cluster names dist_matrix mask c).2.

Lemma select_fold (cls : list (Z * list nat)) (acc : list nat * list cluster_record) :
  foldl (λ acc c, let '(kept, r) := process_cluster names dist_matrix mask c in
                  (acc.1 ++ kept, acc.2 ++ [r])) acc cls
  = (acc.1 ++ flat_map (λ c, kept_of c) cls, acc.2 ++ map (λ c, record_of c) cls).
Proof.
  revert acc. induction cls as [|c cls IH]; intros [s r]; simpl.
  - by rewrite !app_nil_r.
  - destruct (process_cluster names dist_matrix mask c) as [k rc] eqn:E.
    rewrite IH. simpl. by rewrite <- !app_assoc.
Qed.

Lemma select_from_labels_eq (labels : list Z) :
  select_from_labels labels names dist_matrix mask =
    (List.filter
       (λ idx, bool_decide (idx ∈ (list_to_set (flat_map (λ c, kept_of c)
                                                   (group_clusters labels)) : gset nat)))
       (seq 0 (length names)),
     merge_sort record_le (map (λ c, record_of c) (group_clusters labels))).
Proof. unfold select_from_labels. rewrite select_fold. reflexivity. Qed.

End Selection.






Lemma StronglySorted_filter_bool {A} (R : A → A → Prop) (f : A → bool) (l : list A) :
  StronglySorted R l → StronglySorted R (List.filter f l).
Proof.
  induction 1 as [|a l _ IH HF]; simpl; [constructor|].
  destruct (f a); [|done]. constructor; [done|].
  apply Forall_forall. intros x Hx%list_elem_of_In. apply filter_In in Hx as [Hx _].
  eapply Forall_forall in HF; [exact HF|]. by apply list_elem_of_In.
Qed.

Lemma seq_StronglySorted (a n : nat) : StronglySorted lt (seq a n).
Proof.
  revert a. induction n as [|n IH]; intros a; simpl; constructor; [apply IH|].
  apply Forall_forall. intros x Hx%list_elem_of_In%in_seq. lia.
Qed.

Lemma map_filter_sublist {A B} (f : A → B) (p : A → bool) (l : list A) :
  map f (List.filter p l) `sublist_of` map f l.
Proof.
  induction l as [|a l IH]; simpl; [constructor|].
  destruct (p a); simpl; [by apply sublist_skip | by apply sublist_cons].
Qed.

Lemma map_nth_seq_names (names : list string) :
  map (λ i, nth i names "") (seq 0 (length names)) = names.
Proof.
  induction names as [|a l IH]; [done|]. simpl. f_equal.
  rewrite <- seq_shift, map_map. exact IH.
Qed.

#[global] Instance record_le_total : Total record_le.
Proof. intros a b. unfold record_le. lia. Qed.

(** Claim C7: at every threshold the selected indices are valid, distinct
    and increasing (so, when the names are distinct, the emitted names are
    distinct and appear in input order), and the cluster records are sorted
    by cluster id. *)
Theorem select_at_threshold_ordered_unique (Zm : list zrow) (threshold : Q)
    (names : list string) (dist_matrix : matrix) (mask : list bool) :
  let '(selected, records) := select_at_threshold Zm threshold names dist_matrix mask in
  (∀ i, i ∈ selected → i < length names) ∧
  NoDup selected ∧
  StronglySorted lt selected ∧
  Sorted record_le records ∧
  (NoDup names →
     NoDup (map (λ i, nth i names "") selected) ∧
     map (λ i, nth i names "") selected `sublist_of` names).
Proof.
  unfold select_at_threshold. rewrite select_from_labels_eq.
  set (P := λ idx, bool_decide (idx ∈ (_ : gset nat))).
  split; [|split; [|split; [|split]]].
  - intros i Hi%list_elem_of_In. apply filter_In in Hi as [Hi _].
    apply in_seq in Hi. lia.
  - apply NoDup_ListNoDup, List.NoDup_filter, NoDup_ListNoDup, NoDup_seq.
  - apply StronglySorted_filter_bool, seq_StronglySorted.
  - apply Sorted_merge_sort, _.
  - intros Hnd. split.
    + apply (NoDup_fmap_2_strong (λ i, nth i names "")).
      * intros x y Hx Hy Hxy.
        apply list_elem_of_In, filter_In in Hx as [Hx _].
        apply list_elem_of_In, filter_In in Hy as [Hy _].
        apply in_seq in Hx, Hy.
        apply NoDup_ListNoDup in Hnd.
        eapply (proj1 (NoDup_nth names "")); [done|lia|lia|done].
      * apply NoDup_ListNoDup, List.NoDup_filter, NoDup_ListNoDup, NoDup_seq.
    + rewrite <- (map_nth_seq_names names) at 2. apply map_filter_sublist.
Qed.

(** ** The threshold search *)

Section Search.

Context (sel : Q → list nat * list cluster_record) (target : Z).

Definition feasible (t : Q) : bool := Z.leb (Z.of_nat (length (sel t).1)) target.

Definition outcome_at (t : Q) : outcome :=
  {| chosen_indices := (sel t).1; chosen_records := (sel t).2; chosen_threshold := t |}.

Lemma search_cons (t : Q) (rest : list Q) :
  search sel target (t :: rest) =
    if feasible t then ([EvSelect t], inr (Some (outcome_at t)))
    else ([EvSelect t] ++ (search sel target rest).1, (search sel target rest).2).
Proof.
  unfold feasible, outcome_at. simpl.
  destruct (sel t) as [indices records]. simpl.
  destruct (Z.of_nat (length indices) <=? target)%Z; [done|].
  by destruct (search sel target rest).
Qed.

Lemma search_skip (pre l : list Q) :
  (∀ x, x ∈ pre → feasible x = false) →
  search sel target (pre ++ l) =
    (map EvSelect pre ++ (search sel target l).1, (search sel target l).2).
Proof.
  induction pre as [|x pre IH]; intros H; simpl app.
  - by destruct (search sel target l).
  - rewrite search_cons, H by left. rewrite IH by (intros y Hy; apply H; by right).
    reflexivity.
Qed.

Lemma search_none (cands : list Q) :
  (∀ x, x ∈ cands → feasible x = false) →
  search sel target cands = (map EvSelect cands, inr None).
Proof.
  intros H. pose proof (search_skip cands [] H) as E.
  rewrite app_nil_r in E. rewrite E. simpl. by rewrite app_nil_r.
Qed.

Lemma search_first (pre : list Q) (t : Q) (post : list Q) :
  (∀ x, x ∈ pre → feasible x = false) → feasible t = true →
  search sel target (pre ++ t :: post) =
    (map EvSelect (pre ++ [t]), inr (Some (outcome_at t))).
Proof.
  intros Hpre Ht. rewrite search_skip by done. rewrite search_cons, Ht.
  simpl. by rewrite map_app.
Qed.

End Search.

(** A list either has no element satisfying [f] or splits at the first one. *)
Lemma first_true_split {A} (f : A → bool) (l : list A) :
  (∀ x, x ∈ l → f x = false) ∨
  ∃ pre t post, l = pre ++ t :: post ∧ (∀ x, x ∈ pre → f x = false) ∧ f t = true.
Proof.
  induction l as [|a l IH]; [left; intros x Hx; inversion Hx|].
  destruct (f a) eqn:Ha.
  - right. exists [], a, l. split; [done|]. split; [intros x Hx; inversion Hx|done].
  - destruct IH as [H|(pre & t & post & -> & Hpre & Ht)].
    + left. intros x Hx. apply elem_of_cons in Hx as [->|Hx]; [done|by apply H].
    + right. exists (a :: pre), t, post. split; [done|]. split; [|done].
      intros x Hx. apply elem_of_cons in Hx as [->|Hx]; [done|by apply Hpre].
Qed.

(** ** [main] step by step *)

Definition sel_of (linkage : list val → list zrow) (names : list string)
    (dist_matrix : matrix) (mask : list bool) (t : Q) : list nat * list cluster_record :=
  select_at_threshold (linkage (squareform dist_matrix)) t names dist_matrix mask.

Lemma main_core_eq (linkage : list val → list zrow) (meta_map : gmap string string)
    (names : list string) (dist_matrix : matrix) (priority_group : string)
    (target : Z) (max_threshold : option Q) :
  let pids := priority_ids meta_map priority_group in
  let sel := sel_of linkage names dist_matrix (required_mask names pids) in
  let cands := candidate_thresholds (squareform dist_matrix) max_threshold in
  main_core linkage meta_map names dist_matrix priority_group target max_threshold =
    if Z.ltb target (Z.of_nat (length (required_indices names pids))) then
      ([], inl PriorityExceeds)
    else if existsb is_nan (squareform dist_matrix) then ([EvSquareform], inl DistNaN)
    else if linkage_rejects (squareform dist_matrix) then
      ([EvSquareform; EvLinkage], inl LinkageInput)
    else
      match search sel target cands with
      | (tr, inl e) => ([EvSquareform; EvLinkage] ++ tr, inl e)
      | (tr, inr (Some o)) => ([EvSquareform; EvLinkage] ++ tr, inr o)
      | (tr, inr None) =>
          let t := default 0%Q (last cands) in
          ([EvSquareform; EvLinkage] ++ tr ++ [EvSelect t], inr (outcome_at sel t))
      end.
Proof.
  intros pids sel cands. unfold main_core, ensure_priority_subset.
  fold pids. destruct (Z.ltb target _); [reflexivity|].
  simpl. destruct (existsb is_nan (squareform dist_matrix)); [reflexivity|].
  simpl. destruct (linkage_rejects (squareform dist_matrix)); [reflexivity|].
  simpl. fold cands. unfold sel, sel_of.
  destruct (search _ target cands) as [tr [e|[o|]]]; simpl;
    [done|by rewrite app_nil_r|].
  unfold outcome_at. destruct (select_at_threshold _ _ _ _ _). simpl.
  rewrite ?app_nil_r. reflexivity.
Qed.

Lemma search_never_fails (sel : Q → list nat * list cluster_record) (target : Z)
    (cands : list Q) (tr : list event) (e : err) :
  search sel target cands ≠ (tr, inl e).
Proof.
  revert tr. induction cands as [|t rest IH]; intros tr; [done|].
  rewrite search_cons. destruct (feasible sel target t); [done|].
  intros Heq. injection Heq as _ He. apply (IH (search sel target rest).1).
  destruct (search sel target rest). simpl in *. by subst.
Qed.

Lemma search_some_at (sel : Q → list nat * list cluster_record) (target : Z)
    (cands : list Q) (tr : list event) (o : outcome) :
  search sel target cands = (tr, inr (Some o)) → ∃ t, t ∈ cands ∧ o = outcome_at sel t.
Proof.
  revert tr. induction cands as [|t rest IH]; intros tr; [done|].
  rewrite search_cons. destruct (feasible sel target t).
  - intros Heq. injection Heq as _ <-. exists t. split; [left|done].
  - intros Heq. injection Heq as _ He.
    destruct (IH (search sel target rest).1) as (t' & Ht' & ->).
    + destruct (search sel target rest). simpl in *. by subst.
    + exists t'. split; [by right|done].
Qed.

Lemma is_required_mask (names : list string) (pids : gset string) (i : nat) :
  i < length names →
  is_required (required_mask names pids) i = bool_decide (base_id (nth i names "") ∈ pids).
Proof.
  intros Hi. unfold is_required, required_mask.
  destruct (lookup_lt_is_Some_2 names i Hi) as [x Hx].
  rewrite list_lookup_fmap, Hx. simpl. by rewrite (nth_lookup_Some names i "" x Hx).
Qed.

Lemma fcluster_length (Zm : list zrow) (t : Q) : length (fcluster Zm t) = length Zm + 1.
Proof. unfold fcluster. by rewrite length_map, length_seq. Qed.







Ltac eval_hyp := vm_compute; first [reflexivity | intros ?; discriminate | idtac].




(** ** Errors of the run *)



(** Claim C8 (as stated: "a NaN anywhere in the matrix makes the run fail")
    fails: a NaN below the diagonal is not in the condensed vector, and the
    run completes. *)
Lemma lower_nan_not_detected :
  existsb is_nan (concat nan_lower) = true ∧
  ∃ tr o, main_core linkage_average meta_g names2 nan_lower "G" 1 None = (tr, inr o).
Proof. split; [eval_hyp|]. eexists _, _. vm_compute. reflexivity. Qed.

(** Claim C8 (amended): once the priority check has passed, the run raises
    the NaN error exactly when the strict upper triangle (the condensed
    vector) contains a NaN, after the condensed conversion and before the
    dendrogram is built. *)
Theorem nan_error_iff_nan_in_upper_triangle (linkage : list val → list zrow)
    (meta_map : gmap string string) (names : list string) (dist_matrix : matrix)
    (priority_group : string) (target : Z) (max_threshold : option Q) :
  (Z.of_nat (length (required_indices names (priority_ids meta_map priority_group))) <= target)%Z →
  let r := main_core linkage meta_map names dist_matrix priority_group target max_threshold in
  (r.2 = inl DistNaN ↔ existsb is_nan (squareform dist_matrix) = true) ∧
  (r.2 = inl DistNaN → r.1 = [EvSquareform]).
Proof.
  intros Hc r. subst r. rewrite main_core_eq.
  destruct (Z.ltb_spec target (Z.of_nat (length (required_indices names
                                  (priority_ids meta_map priority_group))))); [lia|].
  destruct (existsb is_nan (squareform dist_matrix)) eqn:En; [done|].
  destruct (linkage_rejects (squareform dist_matrix)).
  { simpl. split; [split; discriminate|discriminate]. }
  destruct (search _ target _) as [tr [e'|[o|]]] eqn:Es.
  - exfalso. eapply search_never_fails. exact Es.
  - simpl. split; [split; discriminate|discriminate].
  - simpl. split; [split; discriminate|discriminate].
Qed.

Lemma nan_error_iff_nan_in_upper_triangle_witness :
  (Z.of_nat (length (required_indices names2 (priority_ids meta_g "G"))) <= 1)%Z ∧
  let r := main_core linkage_average meta_g names2 nan_upper "G" 1 None in
  (r.2 = inl DistNaN ↔ existsb is_nan (squareform nan_upper) = true) ∧
  (r.2 = inl DistNaN → r.1 = [EvSquareform]).
Proof.
  split; [eval_hyp|]. apply nan_error_iff_nan_in_upper_triangle. eval_hyp.
Defined.

(** ** Asymmetric matrices *)



(** ** Candidate thresholds *)

Section CandidateLemmas.
Local Open Scope Q_scope.

Lemma Qltb_iff (x y : Q) : Qltb x y = true ↔ x < y.
Proof.
  unfold Qltb. rewrite negb_true_iff. split.
  - intros H. apply Qnot_le_lt. intros Hle. apply Qle_bool_iff in Hle. congruence.
  - intros H. destruct (Qle_bool y x) eqn:E; [|done].
    apply Qle_bool_iff in E. exfalso. apply (Qlt_not_le x y); done.
Qed.

Lemma insert_unique_keeps (q : Q) (l : list Q) (y : Q) :
  y ∈ l → y ∈ insert_unique q l.
Proof.
  induction l as [|x l IH]; simpl; intros Hy; [inversion Hy|].
  destruct (Qltb q x); [by right|].
  destruct (Qeq_bool q x); [done|].
  apply elem_of_cons in Hy as [->|Hy]; [left|right; by apply IH].
Qed.

Lemma insert_unique_from (q : Q) (l : list Q) (y : Q) :
  y ∈ insert_unique q l → y = q ∨ y ∈ l.
Proof.
  induction l as [|x l IH]; simpl; intros Hy.
  - apply elem_of_cons in Hy as [->|Hy]; [by left|inversion Hy].
  - destruct (Qltb q x).
    + apply elem_of_cons in Hy as [->|Hy]; [by left|by right].
    + destruct (Qeq_bool q x); [by right|].
      apply elem_of_cons in Hy as [->|Hy]; [right; left|].
      destruct (IH Hy) as [->|H]; [by left|right; by right].
Qed.

Lemma insert_unique_covers (q : Q) (l : list Q) : ∃ y, y ∈ insert_unique q l ∧ y == q.
Proof.
  induction l as [|x l IH]; simpl.
  - exists q. split; [left|reflexivity].
  - destruct (Qltb q x); [exists q; split; [left|reflexivity]|].
    destruct (Qeq_bool q x) eqn:E.
    + exists x. split; [left|]. apply Qeq_bool_iff in E. by symmetry.
    + destruct IH as (y & Hy & Hq). exists y. split; [by right|done].
Qed.

Lemma insert_unique_hd (q y : Q) (l : list Q) :
  HdRel Qlt y l → y < q → HdRel Qlt y (insert_unique q l).
Proof.
  intros Hh Hy. destruct l as [|x l]; simpl; [by constructor|].
  inversion Hh; subst.
  destruct (Qltb q x); [by constructor|].
  destruct (Qeq_bool q x); [by constructor|by constructor].
Qed.

Lemma insert_unique_sorted (q : Q) (l : list Q) :
  Sorted Qlt l → Sorted Qlt (insert_unique q l).
Proof.
  induction 1 as [|x l Hs IH Hh]; simpl; [repeat constructor|].
  destruct (Qltb q x) eqn:E1.
  - apply Qltb_iff in E1. constructor; [by constructor|by constructor].
  - destruct (Qeq_bool q x) eqn:E2; [by constructor|].
    constructor; [done|]. apply insert_unique_hd; [done|].
    assert (Hn1 : ¬ q < x) by (intros H; apply Qltb_iff in H; congruence).
    assert (Hn2 : ¬ q == x) by (intros H; apply Qeq_bool_iff in H; congruence).
    apply Qnot_le_lt. intros Hle. apply Hn1.
    apply Qle_lt_or_eq in Hle as [Hlt|Heq]; [|exfalso; apply Hn2; by symmetry].
    exfalso. apply Hn1. apply Qnot_le_lt. intros Hqx. apply Hn2.
    apply Qle_antisym; [done|by apply Qlt_le_weak].
Qed.

Lemma np_unique_sorted (l : list Q) : Sorted Qlt (np_unique l).
Proof. induction l as [|q l IH]; simpl; [constructor|]. by apply insert_unique_sorted. Qed.

Lemma np_unique_from (l : list Q) (y : Q) : y ∈ np_unique l → y ∈ l.
Proof.
  induction l as [|q l IH]; simpl; intros Hy; [inversion Hy|].
  destruct (insert_unique_from q (np_unique l) y Hy) as [->|H]; [left|right; by apply IH].
Qed.

Lemma np_unique_covers (l : list Q) (q : Q) : q ∈ l → ∃ y, y ∈ np_unique l ∧ y == q.
Proof.
  induction l as [|x l IH]; simpl; intros Hq; [inversion Hq|].
  apply elem_of_cons in Hq as [->|Hq]; [apply insert_unique_covers|].
  destruct (IH Hq) as (y & Hy & E). exists y. split; [by apply insert_unique_keeps|done].
Qed.

Lemma positive_values_spec (c : list val) (q : Q) :
  q ∈ positive_values c ↔ Num q ∈ c ∧ 0 < q.
Proof.
  unfold positive_values. rewrite list_elem_of_omap. split.
  - intros ([q'| | |] & Hin & Hq); [|done..].
    destruct (Qltb 0 q') eqn:E; [|done]. injection Hq as <-.
    split; [done|]. by apply Qltb_iff.
  - intros [Hin Hq]. exists (Num q). split; [done|].
    apply Qltb_iff in Hq. by rewrite Hq.
Qed.

Lemma Qmax_cases (x y : Q) : Qmax x y = x ∨ Qmax x y = y.
Proof. unfold Qmax, GenericMinMax.gmax. destruct (Qcompare x y); auto. Qed.

Lemma list_max_spec (l : list Q) :
  l ≠ [] → list_max l ∈ l ∧ ∀ q, q ∈ l → q <= list_max l.
Proof.
  destruct l as [|x r]; [done|]. intros _. simpl. revert x.
  induction r as [|y r IH]; intros x; simpl.
  - split; [left|]. intros q Hq. apply elem_of_cons in Hq as [->|Hq]; [apply Qle_refl|inversion Hq].
  - destruct (IH (Qmax x y)) as [Hin Hle]. split.
    + apply elem_of_cons in Hin as [Hm|Hin]; [|right; by right].
      rewrite Hm. destruct (Qmax_cases x y) as [->| ->]; [left|right; left].
    + intros q Hq. apply elem_of_cons in Hq as [->|Hq].
      * eapply Qle_trans; [apply Q.le_max_l|apply Hle; left].
      * apply elem_of_cons in Hq as [->|Hq].
        -- eapply Qle_trans; [apply Q.le_max_r|apply Hle; left].
        -- apply Hle. by right.
Qed.

Lemma py_min_eq (a b : Q) : py_min a b == Qmin a b.
Proof.
  unfold py_min. destruct (Qltb b a) eqn:E.
  - apply Qltb_iff in E. symmetry. apply Q.min_r. by apply Qlt_le_weak.
  - symmetry. apply Q.min_l. apply Qnot_lt_le. intros H. apply Qltb_iff in H. congruence.
Qed.

End CandidateLemmas.

(** Claim C4 (as stated: the sentinel is [max(largest, max_threshold) + ε])
    fails: with [max_threshold = 5] above the only distance 1, the sentinel
    is [1 + ε], not [5 + ε]; the source takes the minimum. *)
Lemma sentinel_is_clamped_by_max_threshold :
  candidate_thresholds (squareform mat2) (Some 5%Q) = [1; 1 + eps]%Q ∧
  ¬ (1 + eps == 5 + eps)%Q.
Proof.
  split; [vm_compute; reflexivity|]. intros H. vm_compute in H. discriminate H.
Qed.

(** Claim C4 (amended): the candidate thresholds are the strictly
    increasing distinct positive values of the strict upper triangle (each a
    value of the matrix; [0] alone when there is none), followed by a
    sentinel equal to [min(largest of them, max_threshold) + ε] (the largest
    plus ε without [max_threshold]). *)
Theorem candidate_thresholds_spec (X : matrix) (max_threshold : option Q) :
  ∃ pd s, candidate_thresholds (squareform X) max_threshold = pd ++ [s] ∧
    Sorted Qlt pd ∧
    (∀ q, q ∈ pd →
          (Num q ∈ squareform X ∧ (0 < q)%Q) ∨
          (pd = [0%Q] ∧ positive_values (squareform X) = [])) ∧
    (∀ q, Num q ∈ squareform X → (0 < q)%Q → ∃ q', q' ∈ pd ∧ (q' == q)%Q) ∧
    list_max pd ∈ pd ∧ (∀ q, q ∈ pd → (q <= list_max pd)%Q) ∧
    (s == match max_threshold with
          | Some mt => Qmin (list_max pd) mt
          | None => list_max pd
          end + eps)%Q.
Proof.
  unfold candidate_thresholds. set (c := squareform X).
  assert (Hs : ∀ pd, pd ≠ [] →
     ((match max_threshold with Some mt => py_min (list_max pd) mt | None => list_max pd end
       + eps) ==
      match max_threshold with Some mt => Qmin (list_max pd) mt | None => list_max pd end
       + eps)%Q).
  { intros pd _. destruct max_threshold as [mt|]; [|reflexivity].
    by rewrite py_min_eq. }
  destruct (np_unique (positive_values c)) as [|a r] eqn:E.
  - assert (Hnone : positive_values c = []).
    { destruct (positive_values c) as [|q l] eqn:Ep; [done|exfalso].
      destruct (np_unique_covers (q :: l) q) as (y & Hy & _); [left|].
      rewrite E in Hy. inversion Hy. }
    eexists [0%Q], _. split; [reflexivity|].
    split; [repeat constructor|]. split; [intros q _; by right|].
    split.
    { intros q Hq Hpos. exfalso.
      assert (Hin : q ∈ positive_values c) by (by apply positive_values_spec).
      rewrite Hnone in Hin. inversion Hin. }
    destruct (list_max_spec [0%Q]) as [Hm Hle]; [done|].
    split; [done|]. split; [done|]. by apply Hs.
  - eexists (a :: r), _. split; [reflexivity|].
    split; [rewrite <- E; apply np_unique_sorted|].
    split.
    { intros q Hq. left. apply positive_values_spec. apply np_unique_from. by rewrite E. }
    split.
    { intros q Hq Hpos. rewrite <- E. apply np_unique_covers. by apply positive_values_spec. }
    destruct (list_max_spec (a :: r)) as [Hm Hle]; [done|].
    split; [done|]. split; [done|]. by apply Hs.
Qed.

(** Claim C3: with [max_threshold = 1/2] below the only distance 1, the
    candidates are [1] then [1/2 + ε]: not ascending.  The run (target 2, no
    priority item) evaluates only [1] and returns it, although the smaller
    candidate [1/2 + ε] is also feasible. *)
Theorem max_threshold_search_not_ascending :
  let sel := sel_of linkage_average names2 mat2 (required_mask names2 (priority_ids meta_g "G")) in
  candidate_thresholds (squareform mat2) (Some (1 # 2)) = [1; (1 # 2) + eps]%Q ∧
  ((1 # 2) + eps < 1)%Q ∧
  (main_core linkage_average meta_g names2 mat2 "G" 2 (Some (1 # 2))).1
    = [EvSquareform; EvLinkage; EvSelect 1] ∧
  match (main_core linkage_average meta_g names2 mat2 "G" 2 (Some (1 # 2))).2 with
  | inr o => chosen_threshold o = 1%Q
  | inl _ => False
  end ∧
  feasible sel 2 ((1 # 2) + eps) = true.
Proof.
  intros sel. split; [vm_compute; reflexivity|].
  split; [vm_compute; reflexivity|].
  split; [vm_compute; reflexivity|].
  split; vm_compute; reflexivity.
Qed.

(** ** A larger target *)

(** Claim C5 (as stated: a larger target gives a selection no larger)
    fails: on [mat3] with no priority item, target 1 selects one item
    (threshold 5) while target 3 selects two (threshold 1). *)
Lemma larger_target_larger_selection :
  match (main_core linkage_average meta_g names3 mat3 "G" 1 None).2,
        (main_core linkage_average meta_g names3 mat3 "G" 3 None).2 with
  | inr o1, inr o3 => length (chosen_indices o1) = 1 ∧ length (chosen_indices o3) = 2
  | _, _ => False
  end.
Proof. vm_compute. split; reflexivity. Qed.

Lemma feasible_mono (sel : Q → list nat * list cluster_record) (t1 t2 : Z) (x : Q) :
  (t1 <= t2)%Z → feasible sel t1 x = true → feasible sel t2 x = true.
Proof. unfold feasible. rewrite !Z.leb_le. lia. Qed.

Lemma search_prefix (sel : Q → list nat * list cluster_record) (t1 t2 : Z) (cands : list Q) :
  (t1 <= t2)%Z →
  (search sel t2 cands).1 `prefix_of` (search sel t1 cands).1 ∧
  ((search sel t2 cands).2 = inr None → search sel t1 cands = search sel t2 cands).
Proof.
  intros H12.
  assert (Hdown : ∀ x, feasible sel t2 x = false → feasible sel t1 x = false).
  { intros x Hx. destruct (feasible sel t1 x) eqn:E; [|done].
    rewrite (feasible_mono sel t1 t2 x H12 E) in Hx. done. }
  destruct (first_true_split (feasible sel t2) cands)
    as [Hall|(pre & t & post & -> & Hpre & Ht)].
  - rewrite !search_none; [split; [reflexivity|done]| |done].
    intros x Hx. apply Hdown, Hall, Hx.
  - rewrite (search_first sel t2 pre t post Hpre Ht).
    rewrite (search_skip sel t1 pre) by (intros x Hx; apply Hdown, Hpre, Hx).
    rewrite search_cons. destruct (feasible sel t1 t); simpl.
    + split; [|discriminate]. rewrite map_app. reflexivity.
    + split; [|discriminate]. exists (search sel t1 post).1.
      rewrite map_app. simpl. by rewrite <- app_assoc.
Qed.

(** Claim C5 (amended): for the same inputs, a run with a larger target
    evaluates a prefix of the thresholds the run with the smaller target
    evaluates: it stops at the same or an earlier candidate, whose
    selection may be larger. *)
Theorem larger_target_stops_no_later (linkage : list val → list zrow)
    (meta_map : gmap string string) (names : list string) (dist_matrix : matrix)
    (priority_group : string) (t1 t2 : Z) (max_threshold : option Q) :
  (t1 <= t2)%Z →
  (Z.of_nat (length (required_indices names (priority_ids meta_map priority_group))) <= t1)%Z →
  (main_core linkage meta_map names dist_matrix priority_group t2 max_threshold).1
    `prefix_of`
  (main_core linkage meta_map names dist_matrix priority_group t1 max_threshold).1.
Proof.
  intros H12 Hc. rewrite !main_core_eq.
  destruct (Z.ltb_spec t2 (Z.of_nat (length (required_indices names
                              (priority_ids meta_map priority_group))))); [lia|].
  destruct (Z.ltb_spec t1 (Z.of_nat (length (required_indices names
                              (priority_ids meta_map priority_group))))); [lia|].
  destruct (existsb is_nan (squareform dist_matrix)); [reflexivity|].
  destruct (linkage_rejects (squareform dist_matrix)); [reflexivity|].
  set (sel := sel_of linkage names dist_matrix
                (required_mask names (priority_ids meta_map priority_group))).
  set (cands := candidate_thresholds (squareform dist_matrix) max_threshold).
  destruct (search_prefix sel t1 t2 cands H12) as [Hp Hn].
  destruct (search sel t2 cands) as [tr2 [e2|[o2|]]] eqn:E2.
  - exfalso. eapply search_never_fails. exact E2.
  - destruct (search sel t1 cands) as [tr1 [e1|[o1|]]] eqn:E1; simpl in Hp.
    + exfalso. eapply search_never_fails. exact E1.
    + simpl. by apply prefix_cons, prefix_cons.
    + simpl. apply prefix_cons, prefix_cons. by apply prefix_app_r.
  - rewrite Hn by reflexivity. reflexivity.
Qed.

Lemma larger_target_stops_no_later_witness :
  ((1 <= 3)%Z ∧
   (Z.of_nat (length (required_indices names3 (priority_ids meta_g "G"))) <= 1)%Z) ∧
  (main_core linkage_average meta_g names3 mat3 "G" 3 None).1
    `prefix_of`
  (main_core linkage_average meta_g names3 mat3 "G" 1 None).1.
Proof.
  split; [split; eval_hyp|].
  apply larger_target_stops_no_later; eval_hyp.
Defined.

(** ** The medoid *)

Definition members_inv (acc : list (Z * list nat)) (k : nat) : Prop :=
  ∀ c ms, (c, ms) ∈ acc → ms ≠ [] ∧ StronglySorted lt ms ∧ Forall (λ x, x < k) ms.

Lemma StronglySorted_snoc (ms : list nat) (k : nat) :
  StronglySorted lt ms → Forall (λ x, x < k) ms → StronglySorted lt (ms ++ [k]).
Proof.
  induction 1 as [|a l Hs IH Hf]; intros Hk; simpl.
  - repeat constructor.
  - inversion Hk as [|? ? Ha Hl]; subst. constructor; [by apply IH|].
    apply Forall_app. split; [done|]. by repeat constructor.
Qed.

Lemma add_member_inv (acc : list (Z * list nat)) (cid : Z) (k : nat) :
  members_inv acc k → members_inv (add_member cid k acc) (S k).
Proof.
  assert (Hw : ∀ ms : list nat, Forall (λ x, x < k) ms → Forall (λ x, x < S k) ms).
  { intros ms Hms. eapply Forall_impl; [exact Hms|]. simpl. lia. }
  induction acc as [|[c ms] acc IH]; intros Hinv c' ms' Hin; simpl in Hin.
  - apply elem_of_cons in Hin as [Heq|Hin]; [|inversion Hin].
    injection Heq as -> ->. split; [done|]. split; repeat constructor; try lia.
  - destruct (Z.eqb c cid).
    + apply elem_of_cons in Hin as [Heq|Hin].
      * injection Heq as -> ->.
        destruct (Hinv c ms) as (_ & Hs & Hf); [left|].
        split; [by destruct ms|]. split; [by apply StronglySorted_snoc|].
        apply Forall_app. split; [by apply Hw|]. repeat constructor; try lia.
      * destruct (Hinv c' ms') as (Hne & Hs & Hf); [by right|]. auto.
    + apply elem_of_cons in Hin as [Heq|Hin].
      * injection Heq as -> ->.
        destruct (Hinv c ms) as (Hne & Hs & Hf); [left|]. auto.
      * refine (IH _ c' ms' Hin). intros c0 ms0 H0. apply (Hinv c0 ms0). by right.
Qed.

Lemma group_fold_inv (ls : list Z) (k : nat) (acc : list (Z * list nat)) :
  members_inv acc k →
  members_inv (foldl (λ acc ic, add_member ic.2 ic.1 acc) acc (zip (seq k (length ls)) ls))
              (k + length ls).
Proof.
  revert k acc. induction ls as [|l ls IH]; intros k acc Hinv; simpl.
  - by rewrite Nat.add_0_r.
  - rewrite <- Nat.add_succ_comm. apply IH. by apply add_member_inv.
Qed.

Lemma group_clusters_members (labels : list Z) (c : Z) (ms : list nat) :
  (c, ms) ∈ group_clusters labels → ms ≠ [] ∧ StronglySorted lt ms.
Proof.
  intros Hin. unfold group_clusters in Hin.
  destruct (group_fold_inv labels 0 [] ltac:(intros ? ? H; inversion H) c ms Hin)
    as (Hne & Hs & _).
  done.
Qed.

Lemma row_sum_num (m : matrix) (ms : list nat) (x : nat) (a : Q) :
  (∀ y, y ∈ ms → is_finite (mat_get m x y) = true) →
  foldl vadd (Num a) (map (mat_get m x) ms) = Num (foldl Qplus a (map (qget m x) ms)).
Proof.
  revert a. induction ms as [|y ms IH]; intros a H; simpl; [done|].
  assert (Hy : mat_get m x y = Num (qget m x y)).
  { unfold qget. specialize (H y ltac:(left)). by destruct (mat_get m x y). }
  rewrite Hy. simpl. apply IH. intros z Hz. apply H. by right.
Qed.

Lemma foldl_Qplus (a : Q) (l : list Q) : (foldl Qplus a l == a + foldr Qplus 0 l)%Q.
Proof.
  revert a. induction l as [|x l IH]; intros a; simpl; [ring|].
  rewrite IH. ring.
Qed.

Lemma sum_split (f : nat → Q) (ms : list nat) (x : nat) :
  NoDup ms → x ∈ ms →
  (foldr Qplus 0 (map f ms) ==
   f x + foldr Qplus 0 (map f (List.filter (λ y, negb (Nat.eqb y x)) ms)))%Q.
Proof.
  induction ms as [|y ms IH]; intros Hnd Hx; [inversion Hx|].
  apply NoDup_cons in Hnd as [Hy Hnd]. simpl.
  destruct (Nat.eqb_spec y x) as [->|Hne]; simpl.
  - assert (Hf : List.filter (λ y, negb (Nat.eqb y x)) ms = ms).
    { clear IH Hx. induction ms as [|z ms IHm]; [done|]. simpl.
      destruct (Nat.eqb_spec z x) as [->|_]; [exfalso; apply Hy; left|].
      simpl. f_equal. apply IHm.
      - intros H. apply Hy. by right.
      - by apply NoDup_cons in Hnd as [_ ?]. }
    rewrite Hf. reflexivity.
  - apply elem_of_cons in Hx as [->|Hx]; [done|].
    rewrite IH by done. ring.
Qed.

(** The row sums of [medoid_index] are the spec's sums when the diagonal is
    zero. *)
Lemma row_sum_eq_sum_to_others (m : matrix) (ms : list nat) (x : nat) :
  NoDup ms → x ∈ ms → (qget m x x == 0)%Q →
  (foldl Qplus 0 (map (qget m x) ms) == sum_to_others m ms x)%Q.
Proof.
  intros Hnd Hx Hd. rewrite foldl_Qplus. unfold sum_to_others.
  rewrite (sum_split (qget m x) ms x Hnd Hx), Hd. ring.
Qed.

Lemma find_nan_num (l : list Q) (i : nat) : find_nan (map Num l) i = None.
Proof. revert i. induction l as [|q l IH]; intros i; simpl; [done|]. apply IH. Qed.

Lemma argmin_go_spec (L pre qs : list Q) (i best : nat) (bv : Q) :
  L = pre ++ qs → length pre = i → best < i → nth best L 0%Q = bv →
  (∀ j, j < i → (bv <= nth j L 0)%Q) → (∀ j, j < best → (bv < nth j L 0)%Q) →
  let res := argmin_go (map Num qs) i best (Num bv) in
  res < length L ∧ (∀ j, j < length L → (nth res L 0 <= nth j L 0)%Q) ∧
  (∀ j, j < res → (nth res L 0 < nth j L 0)%Q).
Proof.
  revert pre i best bv. induction qs as [|q qs IH]; intros pre i best bv -> Hi Hb Hbv Hle Hlt.
  - simpl. rewrite app_nil_r in *. subst bv.
    split; [lia|]. split; [intros j Hj; apply Hle; lia|done].
  - assert (Hq : nth i (pre ++ q :: qs) 0%Q = q) by (subst i; apply nth_middle).
    assert (HL : pre ++ q :: qs = (pre ++ [q]) ++ qs) by (by rewrite <- app_assoc).
    assert (Hlen : length (pre ++ [q]) = S i) by (rewrite length_app; simpl; lia).
    simpl. destruct (Qltb q bv) eqn:E.
    + apply Qltb_iff in E.
      apply (IH (pre ++ [q]) (S i) i q HL Hlen); [lia|done| |].
      * intros j Hj. destruct (Nat.eq_dec j i) as [->|Hne]; [rewrite Hq; apply Qle_refl|].
        apply Qlt_le_weak. eapply Qlt_le_trans; [exact E|]. apply Hle. lia.
      * intros j Hj. eapply Qlt_le_trans; [exact E|]. apply Hle. lia.
    + assert (E' : (bv <= q)%Q).
      { apply Qnot_lt_le. intros H. apply Qltb_iff in H. congruence. }
      apply (IH (pre ++ [q]) (S i) best bv HL Hlen); [lia|done| |done].
      intros j Hj. destruct (Nat.eq_dec j i) as [->|Hne]; [by rewrite Hq|].
      apply Hle. lia.
Qed.

Lemma argmin_spec (L : list Q) :
  L ≠ [] →
  let k := argmin (map Num L) in
  k < length L ∧ (∀ j, j < length L → (nth k L 0 <= nth j L 0)%Q) ∧
  (∀ j, j < k → (nth k L 0 < nth j L 0)%Q).
Proof.
  destruct L as [|q0 qs]; [done|]. intros _. unfold argmin.
  rewrite find_nan_num. simpl map.
  apply (argmin_go_spec (q0 :: qs) [q0] qs 1 0 q0); [done|done|lia|done| |].
  - intros j Hj. assert (j = 0) as -> by lia. apply Qle_refl.
  - intros j Hj. lia.
Qed.

Lemma StronglySorted_nth_le (l : list nat) (i j : nat) :
  StronglySorted lt l → i <= j → j < length l → nth i l 0 <= nth j l 0.
Proof.
  intros Hs. revert i j. induction Hs as [|a l Hs IH Hf]; intros i j Hij Hj; simpl in *; [lia|].
  destruct i as [|i], j as [|j]; [lia| |lia|].
  - eapply Forall_forall in Hf; [apply Nat.lt_le_incl, Hf|].
    apply list_elem_of_In, nth_In. lia.
  - apply IH; lia.
Qed.

Lemma medoid_index_long (m : matrix) (ms : list nat) :
  2 <= length ms → medoid_index m ms = nth (argmin (map (row_sum m ms) ms)) ms 0.
Proof. destruct ms as [|a [|b r]]; simpl; intros H; [lia|lia|reflexivity]. Qed.

Lemma StronglySorted_lt_NoDup (l : list nat) : StronglySorted lt l → NoDup l.
Proof.
  induction 1 as [|a l _ IH Hf]; constructor; [|done].
  intros Ha. rewrite Forall_forall in Hf. specialize (Hf a Ha). lia.
Qed.

Lemma medoid_index_spec (m : matrix) (ms : list nat) :
  ms ≠ [] → StronglySorted lt ms →
  (∀ x y, x ∈ ms → y ∈ ms → is_finite (mat_get m x y) = true) →
  (∀ x, x ∈ ms → (qget m x x == 0)%Q) →
  let md := medoid_index m ms in
  md ∈ ms ∧
  (∀ y, y ∈ ms → (sum_to_others m ms md <= sum_to_others m ms y)%Q) ∧
  (∀ y, y ∈ ms → (sum_to_others m ms y == sum_to_others m ms md)%Q → md <= y).
Proof.
  intros Hne Hs Hnum Hdiag md.
  pose proof (StronglySorted_lt_NoDup ms Hs) as Hnd.
  destruct (decide (length ms = 1)) as [H1|H1].
  { destruct ms as [|a [|b r]]; simpl in H1; [done| |lia].
    subst md. simpl.
    split; [left|]. split.
    - intros y Hy. apply elem_of_cons in Hy as [->|Hy]; [apply Qle_refl|inversion Hy].
    - intros y Hy _. apply elem_of_cons in Hy as [->|Hy]; [lia|inversion Hy]. }
  set (R := λ x, foldl Qplus 0%Q (map (qget m x) ms)).
  assert (HR : ∀ x, x ∈ ms → (R x == sum_to_others m ms x)%Q).
  { intros x Hx. apply row_sum_eq_sum_to_others; auto. }
  assert (Hmap : map (row_sum m ms) ms = map Num (map R ms)).
  { rewrite map_map. apply map_ext_in. intros x Hx%list_elem_of_In.
    unfold row_sum, R. apply row_sum_num. intros y Hy. by apply Hnum. }
  assert (HmapR : map R ms ≠ []) by (destruct ms; done).
  destruct (argmin_spec (map R ms) HmapR) as (Hk & Hmin & Hfirst).
  set (k := argmin (map Num (map R ms))) in *.
  rewrite length_map in Hk.
  assert (Hnth : ∀ j, j < length ms → nth j (map R ms) 0%Q = R (nth j ms 0)).
  { intros j Hj. rewrite (nth_indep _ 0%Q (R 0)) by (by rewrite length_map).
    apply map_nth. }
  assert (Hmd : md = nth k ms 0).
  { subst md. rewrite medoid_index_long by (destruct ms; simpl in *; lia).
    by rewrite Hmap. }
  assert (Hmdin : md ∈ ms) by (rewrite Hmd; apply list_elem_of_In, nth_In; lia).
  split; [done|]. split.
  - intros y Hy. destruct (In_nth ms y 0 (proj1 (list_elem_of_In _ _) Hy)) as (j & Hj & <-).
    rewrite <- (HR md Hmdin), <- HR by done.
    specialize (Hmin j ltac:(by rewrite length_map)).
    rewrite !Hnth in Hmin by lia. by rewrite Hmd.
  - intros y Hy Heq. destruct (In_nth ms y 0 (proj1 (list_elem_of_In _ _) Hy)) as (j & Hj & <-).
    rewrite <- (HR md Hmdin), <- HR in Heq by done.
    rewrite Hmd in Heq |- *.
    destruct (Nat.lt_ge_cases j k) as [Hjk|Hjk].
    + exfalso. specialize (Hfirst j Hjk). rewrite !Hnth in Hfirst by lia.
      rewrite Heq in Hfirst. by apply Qlt_irrefl in Hfirst.
    + apply StronglySorted_nth_le; [done|lia|lia].
Qed.

(** Claim C6: in a cluster without required items exactly one member is
    kept: a member whose sum of distances to the other members (read in the
    full matrix) is minimal, the lowest index among those with the minimal
    sum; a singleton keeps its member.  The matrix entries among the members
    are finite numbers and the diagonal is zero, as in the spec's data
    model. *)
Theorem medoid_of_cluster_without_required (labels : list Z) (names : list string)
    (dist_matrix : matrix) (mask : list bool) (c : Z) (ms : list nat) :
  (c, ms) ∈ group_clusters labels →
  List.filter (is_required mask) ms = [] →
  (∀ x y, x ∈ ms → y ∈ ms → is_finite (mat_get dist_matrix x y) = true) →
  (∀ x, x ∈ ms → (qget dist_matrix x x == 0)%Q) →
  ∃ md, (process_cluster names dist_matrix mask (c, ms)).1 = [md] ∧ md ∈ ms ∧
    (∀ y, y ∈ ms →
          (sum_to_others dist_matrix ms md <= sum_to_others dist_matrix ms y)%Q) ∧
    (∀ y, y ∈ ms →
          (sum_to_others dist_matrix ms y == sum_to_others dist_matrix ms md)%Q → md <= y) ∧
    (∀ x, ms = [x] → md = x).
Proof.
  intros Hin Hreq Hnum Hdiag.
  destruct (group_clusters_members labels c ms Hin) as [Hne Hs].
  exists (medoid_index dist_matrix ms). simpl. rewrite Hreq.
  split; [done|].
  destruct (medoid_index_spec dist_matrix ms Hne Hs Hnum Hdiag) as (H1 & H2 & H3).
  split; [done|]. split; [done|]. split; [done|].
  intros x ->. reflexivity.
Qed.

Lemma medoid_of_cluster_without_required_witness :
  ((1%Z, [0%nat; 1%nat]) ∈ group_clusters [1; 1; 2]%Z ∧
   List.filter (is_required [false; false; false]) [0%nat; 1%nat] = [] ∧
   (∀ x y, x ∈ [0%nat; 1%nat] → y ∈ [0%nat; 1%nat] → is_finite (mat_get mat3 x y) = true) ∧
   (∀ x, x ∈ [0%nat; 1%nat] → (qget mat3 x x == 0)%Q)) ∧
  ∃ md, (process_cluster names3 mat3 [false; false; false] (1%Z, [0%nat; 1%nat])).1 = [md] ∧
    md ∈ [0%nat; 1%nat] ∧
    (∀ y, y ∈ [0%nat; 1%nat] → (sum_to_others mat3 [0%nat; 1%nat] md <= sum_to_others mat3 [0%nat; 1%nat] y)%Q) ∧
    (∀ y, y ∈ [0%nat; 1%nat] →
          (sum_to_others mat3 [0%nat; 1%nat] y == sum_to_others mat3 [0%nat; 1%nat] md)%Q → (md <= y)%nat) ∧
    (∀ x, [0%nat; 1%nat] = [x] → md = x).
Proof.
  assert (H1 : (1%Z, [0%nat; 1%nat]) ∈ group_clusters [1; 1; 2]%Z) by (vm_compute; left).
  assert (H2 : List.filter (is_required [false; false; false]) [0%nat; 1%nat] = []) by reflexivity.
  assert (H3 : ∀ x y, x ∈ [0%nat; 1%nat] → y ∈ [0%nat; 1%nat] → is_finite (mat_get mat3 x y) = true).
  { intros x y Hx%list_elem_of_In Hy%list_elem_of_In.
    destruct Hx as [<-|[<-|[]]], Hy as [<-|[<-|[]]]; reflexivity. }
  assert (H4 : ∀ x, x ∈ [0%nat; 1%nat] → (qget mat3 x x == 0)%Q).
  { intros x Hx%list_elem_of_In. destruct Hx as [<-|[<-|[]]]; reflexivity. }
  split; [done|].
  exact (medoid_of_cluster_without_required [1; 1; 2]%Z names3 mat3 [false; false; false]
           1%Z [0%nat; 1%nat] H1 H2 H3 H4).
Defined.

(** * Further properties of the script *)

(** ** Fields of a line *)

Section Fields.

Lemma str_app_cons (c : ascii) (s t : string) : String c s +:+ t = String c (s +:+ t).
Proof. reflexivity. Qed.

Lemma str_app_empty (t : string) : "" +:+ t = t.
Proof. reflexivity. Qed.

Lemma las_app (s t : string) :
  String.list_ascii_of_string (s +:+ t) = String.list_ascii_of_string s ++ String.list_ascii_of_string t.
Proof. induction s as [|c s IH]; [done|]. rewrite str_app_cons. simpl. by rewrite IH. Qed.

Lemma str_app_nil (s : string) : s +:+ "" = s.
Proof. induction s as [|c s IH]; [done|]. rewrite str_app_cons. by rewrite IH. Qed.

Lemma sola_cons (c : ascii) (l : list ascii) :
  String.string_of_list_ascii (c :: l) = String c (String.string_of_list_ascii l).
Proof. reflexivity. Qed.

Lemma split_go_spaces_pre (pre r : list ascii) :
  Forall (λ c, is_space c = true) pre →
  split_go (String.string_of_list_ascii (pre ++ r)) [] = split_go (String.string_of_list_ascii r) [].
Proof.
  induction 1 as [|c pre Hc _ IH]; [done|].
  simpl app. rewrite sola_cons. simpl. by rewrite Hc.
Qed.

Lemma split_go_spaces_only (suf : list ascii) (cur : list ascii) :
  Forall (λ c, is_space c = true) suf →
  split_go (String.string_of_list_ascii suf) cur = flush cur [].
Proof.
  intros H. destruct H as [|c suf Hc Hs]; [done|].
  rewrite sola_cons. simpl. rewrite Hc. f_equal.
  induction Hs as [|c' suf' Hc' _ IH]; [done|].
  rewrite sola_cons. simpl. by rewrite Hc'.
Qed.

Lemma split_go_spaces_suf (r suf : list ascii) (cur : list ascii) :
  Forall (λ c, is_space c = true) suf →
  split_go (String.string_of_list_ascii (r ++ suf)) cur = split_go (String.string_of_list_ascii r) cur.
Proof.
  intros Hs. revert cur. induction r as [|c r IH]; intros cur.
  - simpl. by apply split_go_spaces_only.
  - simpl app. rewrite !sola_cons. simpl. by rewrite !IH.
Qed.

Lemma lstrip_l_split (l : list ascii) :
  ∃ pre, l = pre ++ lstrip_l l ∧ Forall (λ c, is_space c = true) pre.
Proof.
  induction l as [|c l IH]; [by exists []|]. simpl.
  destruct (is_space c) eqn:Hc.
  - destruct IH as (pre & Hl & Hp). exists (c :: pre). split; [simpl; by f_equal|by constructor].
  - by exists [].
Qed.

(** [str.strip()] does not change the fields of [str.split()]. *)
Lemma split_ws_strip (s : string) : split_ws (strip s) = split_ws s.
Proof.
  unfold split_ws, strip.
  set (l := String.list_ascii_of_string s).
  destruct (lstrip_l_split l) as (pre & Hl & Hpre).
  set (u := lstrip_l l) in *.
  destruct (lstrip_l_split (rev u)) as (pre2 & Hu & Hpre2).
  set (v := lstrip_l (rev u)) in *.
  assert (Eu : u = rev v ++ rev pre2) by (rewrite <- rev_app_distr, <- Hu; by rewrite rev_involutive).
  rewrite <- (String.string_of_list_ascii_of_string s). fold l.
  rewrite Hl, Eu, split_go_spaces_pre by done.
  rewrite split_go_spaces_suf by (by apply Forall_rev). reflexivity.
Qed.

Lemma split_go_token (t r : string) (cur : list ascii) :
  Forall (λ c, is_space c = false) (String.list_ascii_of_string t) →
  split_go (t +:+ r) cur = split_go r (rev (String.list_ascii_of_string t) ++ cur).
Proof.
  revert cur. induction t as [|c t IH]; intros cur Ht; [done|].
  simpl in Ht. inversion Ht as [|? ? Hc Ht']; subst.
  rewrite str_app_cons. simpl. rewrite Hc, IH by done. by rewrite <- app_assoc.
Qed.

Lemma split_go_space (c : ascii) (s : string) (cur : list ascii) :
  is_space c = true → split_go (String c s) cur = flush cur (split_go s []).
Proof. intros H. simpl. by rewrite H. Qed.

Lemma flush_token (t : string) (rest : list string) :
  t ≠ "" → flush (rev (String.list_ascii_of_string t) ++ []) rest = t :: rest.
Proof.
  intros Ht. rewrite app_nil_r. unfold flush.
  destruct (rev (String.list_ascii_of_string t)) eqn:E.
  - apply (f_equal (@rev _)) in E. rewrite rev_involutive in E. simpl in E.
    destruct t; [done|discriminate].
  - rewrite <- E, rev_involutive. by rewrite String.string_of_list_ascii_of_string.
Qed.

(** [" ".join(fields).split()] gives the fields back. *)
Lemma split_ws_join (l : list string) : Forall is_token l → split_ws (join " " l) = l.
Proof.
  unfold split_ws. induction l as [|x l IH]; intros Hl; [done|].
  inversion Hl as [|? ? [Hx Hxs] Hl']; subst.
  destruct l as [|y l].
  - simpl. replace (split_go x []) with (split_go (x +:+ "") []) by (by rewrite str_app_nil).
    rewrite split_go_token by done. simpl. by rewrite flush_token.
  - change (join " " (x :: y :: l)) with (x +:+ " " +:+ join " " (y :: l)).
    rewrite split_go_token by done. rewrite str_app_cons, str_app_empty.
    rewrite split_go_space by reflexivity.
    rewrite flush_token by done. by rewrite IH.
Qed.

Lemma fields_join (l : list string) : Forall is_token l → split_ws (strip (join " " l)) = l.
Proof. intros H. by rewrite split_ws_strip, split_ws_join. Qed.

Lemma flush_tokens (cur : list ascii) (rest : list string) :
  Forall (λ c, is_space c = false) cur → Forall is_token rest → Forall is_token (flush cur rest).
Proof.
  intros Hc Hr. destruct cur as [|c cur]; [done|]. constructor; [|done].
  split.
  - intros E. apply (f_equal String.list_ascii_of_string) in E.
    rewrite String.list_ascii_of_string_of_list_ascii in E. simpl in E.
    by destruct (rev cur).
  - rewrite String.list_ascii_of_string_of_list_ascii. by apply Forall_rev.
Qed.

Lemma split_go_tokens (s : string) (cur : list ascii) :
  Forall (λ c, is_space c = false) cur → Forall is_token (split_go s cur).
Proof.
  revert cur. induction s as [|c s IH]; intros cur Hc; simpl.
  - by apply flush_tokens.
  - destruct (is_space c) eqn:E.
    + apply flush_tokens; [done|]. apply IH. constructor.
    + apply IH. by constructor.
Qed.

(** The fields of [str.split()] are tokens. *)
Lemma split_ws_tokens (s : string) : Forall is_token (split_ws s).
Proof. apply split_go_tokens. constructor. Qed.

End Fields.

(** ** The distance-file loader *)

Section Loader.
Context {F : Type} (parse_int : string → option Z) (parse_float : string → option F).

Lemma gather_enough (n : nat) (vals lines v rest : list string) :
  gather n vals lines = Some (v, rest) → n ≤ length v ∧ length rest ≤ length lines.
Proof.
  revert vals. induction lines as [|l lines IH]; intros vals; simpl.
  - destruct (n <=? length vals) eqn:E; [|done]. intros [= <- <-].
    apply Nat.leb_le in E. simpl. lia.
  - destruct (n <=? length vals) eqn:E.
    + intros [= <- <-]. apply Nat.leb_le in E. simpl. lia.
    + intros H. destruct (IH _ H). lia.
Qed.

Lemma read_rows_step (n k : nat) (line : string) (rest : list string) (name : string)
    (values v rest' : list string) (row : list F) :
  split_ws (strip line) = name :: values → gather n values rest = Some (v, rest') →
  mapM parse_float (take n v) = Some row →
  read_rows parse_float n (S k) (line :: rest) =
    match read_rows parse_float n k rest' with
    | inl e => inl e
    | inr (ns, rs) => inr (name :: ns, row :: rs)
    end.
Proof. intros H1 H2 H3. simpl. by rewrite H1, H2, H3. Qed.

Lemma read_rows_shape (n k : nat) (lines names : list string) (M : list (list F)) :
  read_rows parse_float n k lines = inr (names, M) →
  length names = k ∧ length M = k ∧ Forall (λ r, length r = n) M ∧ Forall is_token names.
Proof.
  revert lines names M. induction k as [|k IH]; intros lines names M.
  - simpl. intros [= <- <-]. repeat split; constructor.
  - destruct lines as [|line rest]; [done|].
    destruct (split_ws (strip line)) as [|name values] eqn:Ef; [simpl; by rewrite Ef|].
    destruct (gather n values rest) as [[v rest']|] eqn:Eg;
      [|simpl; by rewrite Ef, Eg].
    destruct (mapM parse_float (take n v)) as [row|] eqn:Em;
      [|simpl; by rewrite Ef, Eg, Em].
    rewrite (read_rows_step n k line rest name values v rest' row Ef Eg Em).
    destruct (read_rows parse_float n k rest') as [e|[ns rs]] eqn:Er; [done|].
    intros [= <- <-].
    destruct (IH _ _ _ Er) as (H1 & H2 & H3 & H4).
    destruct (gather_enough _ _ _ _ _ Eg) as [Hn _].
    apply mapM_Some_1, Forall2_length in Em. rewrite length_take in Em.
    simpl. split; [lia|]. split; [lia|]. split; [constructor; [lia|done]|].
    constructor; [|done].
    pose proof (split_ws_tokens (strip line)) as Ht. rewrite Ef in Ht. by inversion Ht.
Qed.

Lemma read_rows_short (n k : nat) (lines : list string) :
  length lines < k → ∃ e, read_rows parse_float n k lines = inl e.
Proof.
  revert lines. induction k as [|k IH]; intros lines Hl; [lia|].
  destruct lines as [|line rest]; [by eexists|].
  simpl in Hl.
  destruct (split_ws (strip line)) as [|name values] eqn:Ef; [simpl; rewrite Ef; by eexists|].
  destruct (gather n values rest) as [[v rest']|] eqn:Eg;
    [|simpl; rewrite Ef, Eg; by eexists].
  destruct (mapM parse_float (take n v)) as [row|] eqn:Em;
    [|simpl; rewrite Ef, Eg, Em; by eexists].
  rewrite (read_rows_step n k line rest name values v rest' row Ef Eg Em).
  destruct (gather_enough _ _ _ _ _ Eg) as [_ Hr].
  destruct (IH rest' ltac:(lia)) as [e ->]. by eexists.
Qed.

Lemma gather_chunks (n : nat) (vals : list string) (cs : list (list string)) (rest : list string) :
  Forall (Forall is_token) cs →
  (cs ≠ [] → length (vals ++ concat (removelast cs)) < n) →
  n ≤ length (vals ++ concat cs) →
  gather n vals (map (join " ") cs ++ rest) = Some (vals ++ concat cs, rest).
Proof.
  revert vals. induction cs as [|c cs IH]; intros vals Hc Hlt Hle.
  - simpl in *. rewrite app_nil_r in Hle |- *.
    destruct rest; simpl; by rewrite (proj2 (Nat.leb_le _ _) Hle).
  - inversion Hc as [|? ? Hc1 Hcs]; subst.
    assert (Hv : length vals < n).
    { specialize (Hlt ltac:(done)). rewrite length_app in Hlt. lia. }
    simpl map. simpl app. simpl. rewrite (proj2 (Nat.leb_gt _ _) Hv).
    rewrite fields_join by done.
    rewrite IH; [by rewrite <- app_assoc|done| |by rewrite <- app_assoc].
    intros Hne. specialize (Hlt ltac:(done)).
    destruct cs as [|c' cs]; [done|]. rewrite <- app_assoc. exact Hlt.
Qed.

Lemma read_rows_layout (n : nat) (rows : list (string * list string * list (list string)))
    (M : list (list F)) (trailing : list string) :
  Forall (row_layout n) rows →
  Forall2 (λ r vs, mapM parse_float (take n (r.1.2 ++ concat r.2)) = Some vs) rows M →
  read_rows parse_float n (length rows) (flat_map mldist_row_lines rows ++ trailing)
    = inr (map (λ r, r.1.1) rows, M).
Proof.
  intros Hl. revert M. induction Hl as [|r rows Hr Hrows IH]; intros M HM.
  - inversion HM. reflexivity.
  - inversion HM as [|? vs ? M' Hvs HM']; subst.
    destruct Hr as (Hn & Hv & Hc & Hlt & Hle).
    assert (E : flat_map mldist_row_lines (r :: rows) ++ trailing =
                join " " (r.1.1 :: r.1.2) ::
                  (map (join " ") r.2 ++ (flat_map mldist_row_lines rows ++ trailing))).
    { simpl. unfold mldist_row_lines. simpl. by rewrite <- app_assoc. }
    rewrite E. change (length (r :: rows)) with (S (length rows)).
    rewrite (read_rows_step n (length rows) _ _ r.1.1 r.1.2 (r.1.2 ++ concat r.2)
               (flat_map mldist_row_lines rows ++ trailing) vs).
    + by rewrite (IH M' HM').
    + apply fields_join. by constructor.
    + by apply gather_chunks.
    + done.
Qed.

(** X1: a distance file that loads gives [n] names, all fields of
    [str.split()], and an [n × n] matrix, [n] being the integer on its first
    line. *)
Theorem read_mldist_square (lines names : list string) (M : list (list F)) :
  read_mldist parse_int parse_float lines = inr (names, M) →
  ∃ first n, head lines = Some first ∧ parse_int (strip first) = Some (Z.of_nat n) ∧
    length names = n ∧ length M = n ∧ Forall (λ row, length row = n) M ∧
    Forall is_token names.
Proof.
  destruct lines as [|first rest]; [done|]. simpl.
  destruct (parse_int (strip first)) as [z|] eqn:Ez; [|done].
  destruct (Z.ltb_spec z 0); [done|]. intros Hr.
  exists first, (Z.to_nat z). split; [done|]. split; [by rewrite Z2Nat.id|].
  by apply read_rows_shape in Hr.
Qed.

(** X2: edges of the loader: an empty file and a negative size raise; a size
    of 0 gives no names and an empty matrix whatever follows; a file with
    fewer lines after the first one than the announced size raises. *)
Theorem read_mldist_edges :
  read_mldist parse_int parse_float [] = inl DistEmpty ∧
  (∀ first rest z, parse_int (strip first) = Some z → (z < 0)%Z →
     read_mldist parse_int parse_float (first :: rest) = inl NegativeCount) ∧
  (∀ first rest, parse_int (strip first) = Some 0%Z →
     read_mldist parse_int parse_float (first :: rest) = inr ([], [])) ∧
  (∀ first rest n, parse_int (strip first) = Some (Z.of_nat n) → length rest < n →
     ∃ e, read_mldist parse_int parse_float (first :: rest) = inl e).
Proof.
  split; [done|]. split; [|split].
  - intros first rest z Hz Hneg. simpl. rewrite Hz.
    by rewrite (proj2 (Z.ltb_lt _ _) Hneg).
  - intros first rest Hz. simpl. by rewrite Hz.
  - intros first rest n Hz Hl. simpl. rewrite Hz.
    destruct (Z.ltb_spec (Z.of_nat n) 0); [lia|]. rewrite Nat2Z.id.
    by apply read_rows_short.
Qed.

(** X3: the loader reads back a file written as a size line followed by,
    for each row, a line with the name and some values and continuation
    lines with the other values: it returns the names and, for each row, the
    conversion of its first [n] values; values past the [n]-th on the row's
    last line and all lines after the last row are ignored. *)
Theorem read_mldist_round_trip (header : string)
    (rows : list (string * list string * list (list string))) (M : list (list F))
    (trailing : list string) :
  parse_int (strip header) = Some (Z.of_nat (length rows)) →
  Forall (row_layout (length rows)) rows →
  Forall2 (λ r vs, mapM parse_float (take (length rows) (r.1.2 ++ concat r.2)) = Some vs)
    rows M →
  read_mldist parse_int parse_float (mldist_file header rows ++ trailing)
    = inr (map (λ r, r.1.1) rows, M).
Proof.
  intros Hh Hl HM. unfold mldist_file. simpl. rewrite Hh.
  destruct (Z.ltb_spec (Z.of_nat (length rows)) 0); [lia|].
  rewrite Nat2Z.id. by apply read_rows_layout.
Qed.

End Loader.

Lemma read_mldist_square_witness :
  read_mldist dec_int dec_int ["2"; " a 0 1"; "b 1 0 "] = inr (["a"; "b"], [[0; 1]; [1; 0]]%Z) ∧
  ∃ first n, head ["2"; " a 0 1"; "b 1 0 "] = Some first ∧ dec_int (strip first) = Some (Z.of_nat n) ∧
    length ["a"; "b"] = n ∧ length [[0; 1]; [1; 0]]%Z = n ∧
    Forall (λ row : list Z, length row = n) [[0; 1]; [1; 0]]%Z ∧ Forall is_token ["a"; "b"].
Proof.
  assert (H : read_mldist dec_int dec_int ["2"; " a 0 1"; "b 1 0 "]
              = inr (["a"; "b"], [[0; 1]; [1; 0]]%Z)) by (vm_compute; reflexivity).
  split; [exact H|].
  exact (read_mldist_square dec_int dec_int _ _ _ H).
Defined.

Lemma read_mldist_round_trip_witness :
  dec_int (strip "2") = Some (Z.of_nat 2) ∧
  read_mldist dec_int dec_int
    (mldist_file "2" [("a", ["0"], [["1"; "7"]]); ("b", ["1"; "0"], [])] ++ ["x y"])
    = inr (["a"; "b"], [[0; 1]; [1; 0]]%Z).
Proof.
  assert (H1 : dec_int (strip "2") = Some (Z.of_nat (length
                 [("a", ["0"], [["1"; "7"]]); ("b", ["1"; "0"], [])]))) by reflexivity.
  assert (H2 : Forall (row_layout 2) [("a", ["0"], [["1"; "7"]]); ("b", ["1"; "0"], [])]).
  { unfold row_layout, is_token. apply (bool_decide_unpack _). vm_compute. reflexivity. }
  assert (H3 : Forall2 (λ r vs, mapM dec_int (take 2 (r.1.2 ++ concat r.2)) = Some vs)
                 [("a", ["0"], [["1"; "7"]]); ("b", ["1"; "0"], [])] [[0; 1]; [1; 0]]%Z).
  { repeat constructor. }
  split; [exact H1|].
  exact (read_mldist_round_trip dec_int dec_int "2" _ _ ["x y"] H1 H2 H3).
Defined.

(** ** Lines and separators *)

Section Separators.

Lemma str_app_assoc (a b c : string) : a +:+ (b +:+ c) = (a +:+ b) +:+ c.
Proof. induction a as [|x a IH]; [done|]. rewrite !str_app_cons. by rewrite IH. Qed.

Lemma lacks_app (c : ascii) (a b : string) : lacks c a → lacks c b → lacks c (a +:+ b).
Proof. unfold lacks. rewrite las_app. intros Ha Hb. rewrite elem_of_app. tauto. Qed.

Lemma lacks_join (c : ascii) (sep : string) (l : list string) :
  lacks c sep → Forall (lacks c) l → lacks c (join sep l).
Proof.
  intros Hs. induction 1 as [|x l Hx Hl IH]; [unfold lacks; simpl; apply not_elem_of_nil|].
  destruct l as [|y l]; [done|].
  change (join sep (x :: y :: l)) with (x +:+ sep +:+ join sep (y :: l)).
  by repeat apply lacks_app.
Qed.

Lemma split_char_go_app (c : ascii) (x r : string) (cur : list ascii) :
  lacks c x → split_char_go c (x +:+ r) cur = split_char_go c r (rev (String.list_ascii_of_string x) ++ cur).
Proof.
  revert cur. induction x as [|a x IH]; intros cur Hx; [done|].
  unfold lacks in Hx. simpl in Hx. rewrite elem_of_cons in Hx.
  rewrite str_app_cons. simpl.
  destruct (Ascii.eqb_spec a c) as [->|_]; [tauto|].
  rewrite IH by (unfold lacks; tauto). by rewrite <- app_assoc.
Qed.

Lemma sola_las_rev (x : string) :
  String.string_of_list_ascii (rev (rev (String.list_ascii_of_string x) ++ [])) = x.
Proof.
  rewrite app_nil_r, rev_involutive. apply String.string_of_list_ascii_of_string.
Qed.

Lemma split_char_sep (c : ascii) (x r : string) :
  lacks c x → split_char_go c (x +:+ String c r) [] = x :: split_char_go c r [].
Proof.
  intros Hx. rewrite split_char_go_app by done. simpl.
  rewrite Ascii.eqb_refl. by rewrite sola_las_rev.
Qed.

(** [sep.join(l).split(sep)] gives [l] back when no element holds [sep]. *)
Lemma split_char_join (c : ascii) (l : list string) :
  l ≠ [] → Forall (lacks c) l → split_char c (join (String c "") l) = l.
Proof.
  unfold split_char. intros Hne. induction 1 as [|x l Hx Hl IH]; [done|].
  destruct l as [|y l].
  - replace (join (String c "") [x]) with (x +:+ "") by (simpl; by rewrite str_app_nil).
    rewrite split_char_go_app by done. simpl. by rewrite sola_las_rev.
  - change (join (String c "") (x :: y :: l)) with (x +:+ String c "" +:+ join (String c "") (y :: l)).
    rewrite str_app_cons, str_app_empty, split_char_sep by done. by rewrite IH.
Qed.

(** A file of lines split at newlines: its lines and a last empty string. *)
Lemma split_char_lines (xs : list string) :
  Forall (lacks nl_char) xs → split_char nl_char (lines_text xs) = xs ++ [""].
Proof.
  unfold split_char. induction 1 as [|x xs Hx Hxs IH]; [done|].
  simpl. unfold nl. rewrite str_app_cons, str_app_empty.
  change (Ascii.ascii_of_nat 10) with nl_char.
  rewrite split_char_sep by done. by rewrite IH.
Qed.

Lemma token_lacks (s : string) : is_token s → lacks nl_char s ∧ lacks tab_char s.
Proof.
  intros [_ Hs]. unfold lacks. rewrite Forall_forall in Hs.
  split; intros Hc; specialize (Hs _ Hc); discriminate.
Qed.

Lemma nth_lacks (c : ascii) (names : list string) (i : nat) :
  Forall (lacks c) names → lacks c (nth i names "").
Proof.
  intros H. destruct (Nat.lt_ge_cases i (length names)) as [Hi|Hi].
  - rewrite Forall_forall in H. apply H, list_elem_of_In, nth_In, Hi.
  - rewrite nth_overflow by done. unfold lacks. simpl. apply not_elem_of_nil.
Qed.

Lemma pretty_N_char_digit (x : N) :
  pretty_N_char x ≠ nl_char ∧ pretty_N_char x ≠ tab_char ∧ pretty_N_char x ≠ ","%char.
Proof. unfold pretty_N_char. repeat case_match; repeat split; discriminate. Qed.

Lemma pretty_N_go_safe (x : N) (s : string) :
  Forall (λ c, c ≠ nl_char ∧ c ≠ tab_char ∧ c ≠ ","%char) (String.list_ascii_of_string s) →
  Forall (λ c, c ≠ nl_char ∧ c ≠ tab_char ∧ c ≠ ","%char)
    (String.list_ascii_of_string (pretty_N_go x s)).
Proof.
  revert s. induction (N.lt_wf_0 x) as [x _ IH]; intros s Hs.
  destruct (decide (x = 0%N)) as [->|Hx]; [by rewrite pretty_N_go_0|].
  rewrite pretty_N_go_step by lia. apply IH; [apply N.div_lt; lia|].
  simpl. constructor; [apply pretty_N_char_digit|done].
Qed.

Lemma pretty_N_safe (x : N) :
  Forall (λ c, c ≠ nl_char ∧ c ≠ tab_char ∧ c ≠ ","%char) (String.list_ascii_of_string (pretty x)).
Proof.
  unfold pretty, pretty_N. case_decide.
  - repeat constructor; discriminate.
  - apply pretty_N_go_safe. constructor.
Qed.

Lemma pretty_Z_safe (z : Z) :
  Forall (λ c, c ≠ nl_char ∧ c ≠ tab_char ∧ c ≠ ","%char) (String.list_ascii_of_string (pretty z)).
Proof.
  destruct z as [|p|p]; unfold pretty, pretty_Z.
  - repeat constructor; discriminate.
  - apply pretty_N_safe.
  - simpl. constructor; [repeat split; discriminate|]. apply pretty_N_safe.
Qed.

Lemma safe_lacks (s : string) :
  Forall (λ c, c ≠ nl_char ∧ c ≠ tab_char ∧ c ≠ ","%char) (String.list_ascii_of_string s) →
  lacks nl_char s ∧ lacks tab_char s.
Proof.
  intros H. rewrite Forall_forall in H. unfold lacks.
  split; intros Hc; specialize (H _ Hc); tauto.
Qed.

End Separators.

(** ** Output files of a run *)

Lemma write_ids_ok (idxs : list nat) (names : list string) :
  (∀ i, i ∈ idxs → i < length names) →
  write_ids idxs names = (lines_text (map (λ i, nth i names "") idxs), true).
Proof.
  induction idxs as [|i idxs IH]; intros H; [done|].
  simpl. destruct (lookup_lt_is_Some_2 names i (H i ltac:(left))) as [x Hx].
  rewrite Hx, IH by (intros j Hj; apply H; by right).
  by rewrite (nth_lookup_Some names i "" x Hx).
Qed.

Lemma main_core_outcome (linkage : list val → list zrow) (meta_map : gmap string string)
    (names : list string) (dist_matrix : matrix) (priority_group : string)
    (target : Z) (max_threshold : option Q) (tr : list event) (o : outcome) :
  main_core linkage meta_map names dist_matrix priority_group target max_threshold = (tr, inr o) →
  ∃ t, o = outcome_at (sel_of linkage names dist_matrix
                         (required_mask names (priority_ids meta_map priority_group))) t.
Proof.
  rewrite main_core_eq.
  destruct (Z.ltb target _); [done|]. destruct (existsb is_nan _); [done|].
  destruct (linkage_rejects _); [done|].
  destruct (search _ target _) as [tr' [e|[o'|]]] eqn:Es; intros [= _ <-]; [|eauto].
  apply search_some_at in Es as (t & _ & ->). eauto.
Qed.

Lemma select_from_labels_bound (labels : list Z) (names : list string) (dist_matrix : matrix)
    (mask : list bool) (i : nat) :
  i ∈ (select_from_labels labels names dist_matrix mask).1 → i < length names.
Proof.
  rewrite select_from_labels_eq. simpl. intros Hi.
  apply list_elem_of_In, filter_In in Hi as [Hi _]. apply in_seq in Hi. lia.
Qed.

Lemma select_from_labels_records (labels : list Z) (names : list string) (dist_matrix : matrix)
    (mask : list bool) (r : cluster_record) :
  r ∈ (select_from_labels labels names dist_matrix mask).2 →
  selected_ids r ≠ [] ∧ ∀ s, s ∈ selected_ids r → ∃ i, s = nth i names "".
Proof.
  rewrite select_from_labels_eq. simpl. intros Hr.
  rewrite (merge_sort_Permutation record_le) in Hr.
  apply list_elem_of_In, in_map_iff in Hr as ([cid ms] & <- & _). simpl.
  split.
  - destruct (List.filter (is_required mask) ms); discriminate.
  - intros s Hs. apply list_elem_of_In, in_map_iff in Hs as (i & <- & _). eauto.
Qed.

Lemma report_rows (records : list cluster_record) :
  foldr String.append "" (map report_line records) =
    lines_text (map (λ r, join tab (report_fields r)) records).
Proof.
  induction records as [|r records IH]; [done|].
  change (report_line r +:+ foldr String.append "" (map report_line records) =
          join tab (report_fields r) +:+ nl +:+
            lines_text (map (λ r, join tab (report_fields r)) records)).
  rewrite IH. unfold report_line. simpl. by rewrite <- !str_app_assoc.
Qed.

Lemma report_text (records : list cluster_record) (meta_map : gmap string string)
    (priority_label : string) :
  write_cluster_report records meta_map priority_label =
    lines_text (join tab ["cluster_id"; "size"; "required_count"; "selected_ids"] ::
                map (λ r, join tab (report_fields r)) records).
Proof.
  unfold write_cluster_report. rewrite report_rows.
  unfold report_header. simpl. by rewrite <- !str_app_assoc.
Qed.

(** X4: after a successful run, [write_ids] writes every line without
    IndexError, and the file read back line by line gives the names of the
    chosen indices, in order, when the names are fields of [str.split()] (as
    the loader returns them, X1). *)
Theorem ids_file_lists_selected_names (linkage : list val → list zrow)
    (meta_map : gmap string string) (names : list string) (dist_matrix : matrix)
    (priority_group : string) (target : Z) (max_threshold : option Q)
    (tr : list event) (o : outcome) :
  Forall is_token names →
  main_core linkage meta_map names dist_matrix priority_group target max_threshold = (tr, inr o) →
  ∃ text, write_ids (chosen_indices o) names = (text, true) ∧
    split_char nl_char text = map (λ i, nth i names "") (chosen_indices o) ++ [""].
Proof.
  intros Hn Hrun. apply main_core_outcome in Hrun as [t ->].
  eexists. split.
  - apply write_ids_ok. intros i Hi. eapply select_from_labels_bound. exact Hi.
  - apply split_char_lines. apply Forall_forall. intros s Hs.
    apply list_elem_of_In, in_map_iff in Hs as (i & <- & _).
    apply nth_lacks. eapply Forall_impl; [exact Hn|]. intros x Hx. apply token_lacks, Hx.
Qed.

Lemma ids_file_lists_selected_names_witness :
  Forall is_token names3 ∧
  ∃ tr o, main_core linkage_average meta_a names3 mat3 "G" 1 None = (tr, inr o) ∧
    ∃ text, write_ids (chosen_indices o) names3 = (text, true) ∧
      split_char nl_char text = map (λ i, nth i names3 "") (chosen_indices o) ++ [""].
Proof.
  assert (Hn : Forall is_token names3).
  { unfold is_token. apply (bool_decide_unpack _). vm_compute. reflexivity. }
  split; [exact Hn|].
  destruct (main_core linkage_average meta_a names3 mat3 "G" 1 None) as [tr [e|o]] eqn:E.
  - vm_compute in E. discriminate.
  - exists tr, o. split; [reflexivity|].
    exact (ids_file_lists_selected_names linkage_average meta_a names3 mat3 "G" 1 None tr o Hn E).
Defined.

(** X5: after a successful run, the cluster report read back gives a header
    line and one line per record; each line split at tabs gives the header's
    four names, or the record's id, size, required count and its selected
    names joined by commas; no record has an empty selection, and when no
    name holds a comma, splitting the last field at commas gives back the
    selected names. The names are fields of [str.split()]. *)
Theorem cluster_report_fields (linkage : list val → list zrow)
    (meta_map : gmap string string) (names : list string) (dist_matrix : matrix)
    (priority_group : string) (target : Z) (max_threshold : option Q)
    (tr : list event) (o : outcome) :
  Forall is_token names →
  main_core linkage meta_map names dist_matrix priority_group target max_threshold = (tr, inr o) →
  ∃ rows, split_char nl_char (write_cluster_report (chosen_records o) meta_map priority_group)
            = rows ++ [""] ∧
    map (split_char tab_char) rows =
      ["cluster_id"; "size"; "required_count"; "selected_ids"] :: map report_fields (chosen_records o) ∧
    Forall (λ r, selected_ids r ≠ [] ∧
                 (Forall (lacks ","%char) names → split_char ","%char (join "," (selected_ids r)) = selected_ids r))
      (chosen_records o).
Proof.
  intros Hn Hrun. apply main_core_outcome in Hrun as [t ->].
  set (recs := (outcome_at _ t).(chosen_records)).
  assert (Hrec : ∀ r, r ∈ recs → selected_ids r ≠ [] ∧ ∀ s, s ∈ selected_ids r → ∃ i, s = nth i names "").
  { intros r Hr. unfold recs, outcome_at, sel_of, select_at_threshold in Hr. simpl in Hr.
    eapply select_from_labels_records. exact Hr. }
  assert (Hid : ∀ c r, r ∈ recs → (∀ x, x ∈ names → lacks c x) → Forall (lacks c) (selected_ids r)).
  { intros c r Hr Hc. apply Forall_forall. intros s Hs.
    destruct (Hrec r Hr) as [_ Hs']. destruct (Hs' s Hs) as [i ->].
    apply nth_lacks, Forall_forall, Hc. }
  assert (Htok : ∀ c, c = nl_char ∨ c = tab_char → ∀ x, x ∈ names → lacks c x).
  { intros c Hc x Hx. rewrite Forall_forall in Hn. destruct (token_lacks x (Hn x Hx)).
    destruct Hc as [->| ->]; done. }
  assert (Hfields : ∀ r, r ∈ recs → Forall (lacks nl_char) (report_fields r) ∧
                                     Forall (lacks tab_char) (report_fields r)).
  { intros r Hr. unfold report_fields.
    destruct (safe_lacks _ (pretty_Z_safe (cluster_id r))).
    destruct (safe_lacks _ (pretty_N_safe (N.of_nat (size r)))).
    destruct (safe_lacks _ (pretty_N_safe (N.of_nat (required_count r)))).
    assert (lacks nl_char ",") by (unfold lacks; simpl; rewrite elem_of_cons; intros [?|?];
                                   [discriminate|by apply not_elem_of_nil in H5]).
    assert (lacks tab_char ",") by (unfold lacks; simpl; rewrite elem_of_cons; intros [?|?];
                                   [discriminate|by apply not_elem_of_nil in H6]).
    split; repeat constructor; try done; apply lacks_join; try done;
      apply Hid; [done| |done|]; apply Htok; auto. }
  exists (join tab ["cluster_id"; "size"; "required_count"; "selected_ids"] ::
          map (λ r, join tab (report_fields r)) recs).
  split; [|split].
  - rewrite report_text. apply split_char_lines. constructor.
    + apply (bool_decide_unpack _). vm_compute. reflexivity.
    + apply Forall_forall. intros s Hs.
      apply list_elem_of_In, in_map_iff in Hs as (r & <- & Hr%list_elem_of_In).
      apply lacks_join; [unfold lacks; simpl; rewrite elem_of_cons; intros [?|?];
                         [discriminate|by apply not_elem_of_nil in H]|].
      apply (Hfields r Hr).
  - cbn [map]. rewrite map_map. f_equal; try (vm_compute; reflexivity).
    apply map_ext_in. intros r Hr%list_elem_of_In.
    apply split_char_join; [discriminate|]. apply (Hfields r Hr).
  - apply Forall_forall. intros r Hr. destruct (Hrec r Hr) as [Hne _].
    split; [done|]. intros Hc. apply split_char_join; [done|].
    apply Hid; [done|]. by apply Forall_forall.
Qed.

Lemma cluster_report_fields_witness :
  Forall is_token names3 ∧
  ∃ tr o, main_core linkage_average meta_a names3 mat3 "G" 1 None = (tr, inr o) ∧
  ∃ rows, split_char nl_char (write_cluster_report (chosen_records o) meta_a "G") = rows ++ [""] ∧
    map (split_char tab_char) rows =
      ["cluster_id"; "size"; "required_count"; "selected_ids"] :: map report_fields (chosen_records o) ∧
    Forall (λ r, selected_ids r ≠ [] ∧
                 (Forall (lacks ","%char) names3 → split_char ","%char (join "," (selected_ids r)) = selected_ids r))
      (chosen_records o).
Proof.
  assert (Hn : Forall is_token names3).
  { unfold is_token. apply (bool_decide_unpack _). vm_compute. reflexivity. }
  split; [exact Hn|].
  destruct (main_core linkage_average meta_a names3 mat3 "G" 1 None) as [tr [e|o]] eqn:E.
  - vm_compute in E. discriminate.
  - exists tr, o. split; [reflexivity|].
    exact (cluster_report_fields linkage_average meta_a names3 mat3 "G" 1 None tr o Hn E).
Defined.

(** ** The FASTA subset *)

Lemma filter_sublist_bool {A} (p : A → bool) (l : list A) : List.filter p l `sublist_of` l.
Proof.
  induction l as [|a l IH]; simpl; [constructor|].
  destruct (p a); [by apply sublist_skip|by apply sublist_cons].
Qed.

(** X6: [write_fasta_subset] writes, in the order of the FASTA file, exactly
    the records whose id is a kept name.  When the ids of the FASTA file are
    distinct, it returns without the RuntimeError exactly when every kept name
    is the id of some record. *)
Theorem fasta_subset_written_and_checked (records : list fasta_record) (keep_names : list string) :
  (write_fasta_subset records keep_names).1 `sublist_of` records ∧
  (∀ r, r ∈ (write_fasta_subset records keep_names).1 ↔ r ∈ records ∧ rec_id r ∈ keep_names) ∧
  (NoDup (map rec_id records) →
   ((write_fasta_subset records keep_names).2 = true ↔
      ∀ k, k ∈ keep_names → ∃ r, r ∈ records ∧ rec_id r = k)).
Proof.
  unfold write_fasta_subset. simpl.
  set (K := list_to_set keep_names : gset string).
  set (W := List.filter (λ r, bool_decide (rec_id r ∈ K)) records).
  assert (HW : ∀ r, r ∈ W ↔ r ∈ records ∧ rec_id r ∈ keep_names).
  { intros r. unfold W. rewrite !list_elem_of_In, filter_In, bool_decide_eq_true.
    unfold K. rewrite elem_of_list_to_set. by rewrite list_elem_of_In. }
  split; [apply filter_sublist_bool|]. split; [done|]. intros Hnd.
  assert (Hnd' : NoDup (map rec_id W)).
  { eapply sublist_NoDup; [exact Hnd|]. apply map_filter_sublist. }
  assert (Hlen : length W = stdpp.base.size (list_to_set (map rec_id W) : gset string)).
  { rewrite size_list_to_set by done. by rewrite length_map. }
  assert (Hsub : (list_to_set (map rec_id W) : gset string) ⊆ K).
  { intros k. rewrite elem_of_list_to_set. intros (r & <- & Hr)%list_elem_of_In%in_map_iff.
    apply list_elem_of_In, HW in Hr. unfold K. rewrite elem_of_list_to_set. apply Hr. }
  rewrite Hlen. split.
  - intros Heq%Nat.eqb_eq k Hk.
    assert (E : (list_to_set (map rec_id W) : gset string) = K).
    { apply set_subseteq_size_eq; [done|lia]. }
    assert (Hk' : k ∈ (list_to_set (map rec_id W) : gset string)).
    { rewrite E. unfold K. by rewrite elem_of_list_to_set. }
    rewrite elem_of_list_to_set in Hk'.
    apply list_elem_of_In, in_map_iff in Hk' as (r & <- & Hr).
    exists r. apply list_elem_of_In, HW in Hr. tauto.
  - intros Hall. apply Nat.eqb_eq.
    assert (HK : K ⊆ (list_to_set (map rec_id W) : gset string)).
    { intros k Hk. unfold K in Hk. rewrite elem_of_list_to_set in Hk.
      destruct (Hall k Hk) as (r & Hr & <-).
      rewrite elem_of_list_to_set. apply list_elem_of_In, in_map_iff.
      exists r. split; [done|]. apply list_elem_of_In, HW. done. }
    assert (E : (list_to_set (map rec_id W) : gset string) = K) by set_solver.
    by rewrite E.
Qed.

(** ** How the run picks its threshold *)

Lemma candidate_thresholds_last (c : list val) (max_threshold : option Q) :
  ∃ s, last (candidate_thresholds c max_threshold) = Some s.
Proof. unfold candidate_thresholds. eexists. apply last_snoc. Qed.

Lemma length_filter_bool {A} (p : A → bool) (l : list A) :
  length (List.filter p l) <= length l.
Proof. induction l as [|a l IH]; simpl; [lia|]. destruct (p a); simpl; lia. Qed.


(** X7: a run that succeeds either stops at the first candidate threshold
    whose selection has at most [target] items, after evaluating exactly the
    candidates up to it, or, when no candidate fits, evaluates them all and
    then the last one again, returning its selection although it has more
    than [target] items. *)
Theorem run_first_fit_or_fallback (linkage : list val → list zrow)
    (meta_map : gmap string string) (names : list string) (dist_matrix : matrix)
    (priority_group : string) (target : Z) (max_threshold : option Q)
    (tr : list event) (o : outcome) :
  main_core linkage meta_map names dist_matrix priority_group target max_threshold
    = (tr, inr o) →
  let sel := sel_of linkage names dist_matrix
               (required_mask names (priority_ids meta_map priority_group)) in
  let cands := candidate_thresholds (squareform dist_matrix) max_threshold in
  (∃ pre t post, cands = pre ++ t :: post ∧
     (∀ x, x ∈ pre → feasible sel target x = false) ∧ feasible sel target t = true ∧
     tr = [EvSquareform; EvLinkage] ++ map EvSelect (pre ++ [t]) ∧ o = outcome_at sel t) ∨
  (∃ s, last cands = Some s ∧ (∀ x, x ∈ cands → feasible sel target x = false) ∧
     tr = [EvSquareform; EvLinkage] ++ map EvSelect cands ++ [EvSelect s] ∧
     o = outcome_at sel s ∧ (target < Z.of_nat (length (chosen_indices o)))%Z).
Proof.
  intros Hrun sel cands. rewrite main_core_eq in Hrun. fold sel cands in Hrun.
  destruct (Z.ltb _ _); [done|].
  destruct (existsb is_nan (squareform dist_matrix)); [done|].
  destruct (linkage_rejects (squareform dist_matrix)); [done|].
  destruct (first_true_split (feasible sel target) cands)
    as [Hall|(pre & t & post & Hc & Hpre & Ht)].
  - rewrite (search_none sel target cands Hall) in Hrun.
    destruct (candidate_thresholds_last (squareform dist_matrix) max_threshold) as [s Hs].
    fold cands in Hs. rewrite Hs in Hrun. simpl in Hrun. injection Hrun as <- <-.
    right. exists s. split; [done|]. split; [done|]. split; [done|]. split; [done|].
    specialize (Hall s (last_Some_elem_of _ _ Hs)).
    unfold feasible in Hall. apply Z.leb_gt in Hall. exact Hall.
  - rewrite Hc, (search_first sel target pre t post Hpre Ht) in Hrun.
    injection Hrun as <- <-. left. exists pre, t, post. auto.
Qed.


Lemma run_first_fit_or_fallback_witness :
  main_core linkage_average meta_g names3 mat3 "G" 1 None
    = ([EvSquareform; EvLinkage; EvSelect 1; EvSelect 5],
       inr {| chosen_indices := [0];
              chosen_records := [{| cluster_id := 1; size := 3; required_count := 0;
                                    selected_ids := ["A_1"] |}];
              chosen_threshold := 5 |}) ∧
  let sel := sel_of linkage_average names3 mat3 (required_mask names3 (priority_ids meta_g "G")) in
  let cands := candidate_thresholds (squareform mat3) None in
  let tr := [EvSquareform; EvLinkage; EvSelect 1; EvSelect 5] in
  let o := {| chosen_indices := [0];
              chosen_records := [{| cluster_id := 1; size := 3; required_count := 0;
                                    selected_ids := ["A_1"] |}];
              chosen_threshold := 5 |} in
  (∃ pre t post, cands = pre ++ t :: post ∧
     (∀ x, x ∈ pre → feasible sel 1 x = false) ∧ feasible sel 1 t = true ∧
     tr = [EvSquareform; EvLinkage] ++ map EvSelect (pre ++ [t]) ∧ o = outcome_at sel t) ∨
  (∃ s, last cands = Some s ∧ (∀ x, x ∈ cands → feasible sel 1 x = false) ∧
     tr = [EvSquareform; EvLinkage] ++ map EvSelect cands ++ [EvSelect s] ∧
     o = outcome_at sel s ∧ (1 < Z.of_nat (length (chosen_indices o)))%Z).
Proof.
  assert (H : main_core linkage_average meta_g names3 mat3 "G" 1 None
    = ([EvSquareform; EvLinkage; EvSelect 1; EvSelect 5],
       inr {| chosen_indices := [0];
              chosen_records := [{| cluster_id := 1; size := 3; required_count := 0;
                                    selected_ids := ["A_1"] |}];
              chosen_threshold := 5 |})) by (vm_compute; reflexivity).
  split; [exact H|].
  exact (run_first_fit_or_fallback linkage_average meta_g names3 mat3 "G" 1 None _ _ H).
Defined.


(** ** Accounting of a selection *)

Lemma Permutation_filter_bool {A} (p : A → bool) (l k : list A) :
  l ≡ₚ k → List.filter p l ≡ₚ List.filter p k.
Proof.
  induction 1 as [|x l k _ IH|x y l|l m k _ IH1 _ IH2]; simpl.
  - done.
  - destruct (p x); [by apply perm_skip|done].
  - destruct (p x), (p y); [apply perm_swap|done|done|done].
  - by etrans.
Qed.

Lemma filter_bool_app {A} (p : A → bool) (l k : list A) :
  List.filter p (l ++ k) = List.filter p l ++ List.filter p k.
Proof. induction l as [|a l IH]; simpl; [done|]. destruct (p a); simpl; by rewrite IH. Qed.

Lemma add_member_perm (cid : Z) (idx : nat) (cl : list (Z * list nat)) :
  concat (map snd (add_member cid idx cl)) ≡ₚ concat (map snd cl) ++ [idx].
Proof.
  induction cl as [|[c ms] cl IH]; simpl; [done|].
  destruct (Z.eqb c cid); simpl.
  - rewrite <- !app_assoc. apply Permutation_app_head, Permutation_app_comm.
  - rewrite IH. by rewrite app_assoc.
Qed.

Lemma group_fold_perm (l : list (nat * Z)) (acc : list (Z * list nat)) :
  concat (map snd (foldl (λ acc ic, add_member ic.2 ic.1 acc) acc l))
    ≡ₚ concat (map snd acc) ++ l.*1.
Proof.
  revert acc. induction l as [|[i c] l IH]; intros acc; simpl.
  - by rewrite app_nil_r.
  - rewrite IH, add_member_perm. by rewrite <- app_assoc.
Qed.

(** The clusters split the items: their members, together, are the indices
    of the labels, each once. *)
Lemma group_clusters_perm (labels : list Z) :
  concat (map snd (group_clusters labels)) ≡ₚ seq 0 (length labels).
Proof.
  unfold group_clusters. rewrite group_fold_perm. simpl.
  rewrite fst_zip by (rewrite length_seq; lia). done.
Qed.

Lemma find_nan_bound (l : list val) (i j : nat) :
  find_nan l i = Some j → i <= j < i + length l.
Proof.
  revert i. induction l as [|v l IH]; intros i; simpl; [done|].
  destruct v; try (intros H; apply IH in H; lia).
  intros [= <-]. lia.
Qed.

Lemma argmin_go_bound (l : list val) (i best : nat) (bv : val) :
  best < i + length l → argmin_go l i best bv < i + length l.
Proof.
  revert i best bv. induction l as [|v l IH]; intros i best bv H; simpl in *; [lia|].
  destruct (vlt v bv).
  all: match goal with
       | |- argmin_go _ _ ?b ?v < _ => pose proof (IH (S i) b v ltac:(lia)); lia
       end.
Qed.

Lemma argmin_bound (l : list val) : l ≠ [] → argmin l < length l.
Proof.
  intros Hne. unfold argmin.
  destruct (find_nan l 0) as [j|] eqn:E.
  - apply find_nan_bound in E. lia.
  - destruct l as [|v l']; [done|].
    pose proof (argmin_go_bound l' 1 0 v ltac:(lia)). simpl. lia.
Qed.

(** [medoid_index] returns one of the indices it is given. *)
Lemma medoid_index_member (m : matrix) (ms : list nat) :
  ms ≠ [] → medoid_index m ms ∈ ms.
Proof.
  intros Hne. destruct ms as [|a [|b r]]; [done|left|].
  rewrite medoid_index_long by (simpl; lia).
  apply list_elem_of_In, nth_In.
  pose proof (argmin_bound (map (row_sum m (a :: b :: r)) (a :: b :: r))) as H.
  rewrite length_map in H. apply H. discriminate.
Qed.

Lemma sublist_singleton_elem {A} (x : A) (l : list A) : x ∈ l → [x] `sublist_of` l.
Proof.
  induction l as [|a l IH]; intros Hx; [inversion Hx|].
  apply elem_of_cons in Hx as [->|Hx].
  - apply sublist_skip, sublist_nil_l.
  - apply sublist_cons, IH, Hx.
Qed.

Lemma kept_sublist (names : list string) (dist_matrix : matrix) (mask : list bool)
    (c : Z) (ms : list nat) :
  ms ≠ [] → (process_cluster names dist_matrix mask (c, ms)).1 `sublist_of` ms.
Proof.
  intros Hne. simpl. destruct (List.filter (is_required mask) ms) as [|x l] eqn:E.
  - by apply sublist_singleton_elem, medoid_index_member.
  - rewrite <- E. apply filter_sublist_bool.
Qed.

Lemma kept_all_sublist (names : list string) (dist_matrix : matrix) (mask : list bool)
    (cls : list (Z * list nat)) :
  (∀ c ms, (c, ms) ∈ cls → ms ≠ []) →
  flat_map (λ c, (process_cluster names dist_matrix mask c).1) cls
    `sublist_of` concat (map snd cls).
Proof.
  induction cls as [|[c ms] cls IH]; intros H; simpl; [constructor|].
  apply sublist_app.
  - apply (kept_sublist names dist_matrix mask c ms). apply (H c). left.
  - apply IH. intros c' ms' Hin. apply (H c'). by right.
Qed.

Lemma sum_sizes (names : list string) (dist_matrix : matrix) (mask : list bool)
    (cls : list (Z * list nat)) :
  sum_list_with size (map (λ c, (process_cluster names dist_matrix mask c).2) cls)
    = length (concat (map snd cls)).
Proof.
  induction cls as [|[c ms] cls IH]; simpl; [done|]. rewrite length_app. lia.
Qed.

Lemma sum_required (names : list string) (dist_matrix : matrix) (mask : list bool)
    (cls : list (Z * list nat)) :
  sum_list_with required_count (map (λ c, (process_cluster names dist_matrix mask c).2) cls)
    = length (List.filter (is_required mask) (concat (map snd cls))).
Proof.
  induction cls as [|[c ms] cls IH]; simpl; [done|].
  rewrite filter_bool_app, length_app. lia.
Qed.

Lemma sum_kept (names : list string) (dist_matrix : matrix) (mask : list bool)
    (cls : list (Z * list nat)) :
  length (flat_map (λ c, (process_cluster names dist_matrix mask c).1) cls)
    = sum_list_with (λ r, Nat.max 1 (required_count r))
        (map (λ c, (process_cluster names dist_matrix mask c).2) cls).
Proof.
  induction cls as [|[c ms] cls IH]; simpl; [done|].
  rewrite length_app, IH. f_equal.
  destruct (List.filter (is_required mask) ms); simpl; lia.
Qed.

Lemma ids_of_kept (names : list string) (dist_matrix : matrix) (mask : list bool)
    (cls : list (Z * list nat)) :
  concat (map selected_ids (map (λ c, (process_cluster names dist_matrix mask c).2) cls))
    = map (λ i, nth i names "") (flat_map (λ c, (process_cluster names dist_matrix mask c).1) cls).
Proof.
  induction cls as [|[c ms] cls IH]; simpl; [done|].
  rewrite map_app, IH. reflexivity.
Qed.

(** X9: at every threshold, when [fcluster] labels all items: each cluster
    record has a size of at least 1, at most [size] required items, and
    [max(1, required_count)] selected ids; the sizes add up to the number of
    items and the required counts to the number of required items; the
    number of selected items is the sum of [max(1, required_count)] over the
    clusters; and the selected ids of the records, together, are the names
    of the selected items, each once. *)
Theorem selection_accounting (Zm : list zrow) (threshold : Q) (names : list string)
    (dist_matrix : matrix) (mask : list bool) :
  length Zm + 1 = length names →
  let '(selected, records) := select_at_threshold Zm threshold names dist_matrix mask in
  Forall (λ r, 1 <= size r ∧ required_count r <= size r ∧
               length (selected_ids r) = Nat.max 1 (required_count r)) records ∧
  sum_list_with size records = length names ∧
  sum_list_with required_count records
    = length (List.filter (is_required mask) (seq 0 (length names))) ∧
  length selected = sum_list_with (λ r, Nat.max 1 (required_count r)) records ∧
  concat (map selected_ids records) ≡ₚ map (λ i, nth i names "") selected.
Proof.
  intros Hlen.
  destruct (select_at_threshold Zm threshold names dist_matrix mask)
    as [selected records] eqn:E.
  unfold select_at_threshold in E. rewrite select_from_labels_eq in E.
  injection E as Hsel Hrec.
  set (labels := fcluster Zm threshold) in *.
  assert (HL : length labels = length names) by (unfold labels; rewrite fcluster_length; lia).
  set (cls := group_clusters labels) in *.
  set (K := flat_map (λ c, (process_cluster names dist_matrix mask c).1) cls) in *.
  assert (Hperm : concat (map snd cls) ≡ₚ seq 0 (length names))
    by (rewrite <- HL; apply group_clusters_perm).
  assert (Hne : ∀ c ms, (c, ms) ∈ cls → ms ≠ [])
    by (intros c ms Hin; by apply (group_clusters_members labels c ms Hin)).
  assert (Hrp : records ≡ₚ map (λ c, (process_cluster names dist_matrix mask c).2) cls)
    by (rewrite <- Hrec; apply merge_sort_Permutation).
  assert (HKsub : K `sublist_of` concat (map snd cls)) by (by apply kept_all_sublist).
  assert (HKnd : NoDup K).
  { eapply sublist_NoDup; [|exact HKsub]. rewrite Hperm. apply NoDup_seq. }
  assert (HselK : selected ≡ₚ K).
  { apply NoDup_Permutation.
    - rewrite <- Hsel. apply NoDup_ListNoDup, List.NoDup_filter, NoDup_ListNoDup, NoDup_seq.
    - done.
    - intros x. rewrite <- Hsel, list_elem_of_In, filter_In, bool_decide_eq_true,
        elem_of_list_to_set. split; [tauto|].
      intros Hx. split; [|done]. apply list_elem_of_In.
      rewrite <- Hperm. by eapply elem_of_sublist. }
  split; [|split; [|split; [|split]]].
  - rewrite Hrp. apply Forall_forall. intros r Hr%list_elem_of_In.
    apply in_map_iff in Hr as ([cid ms] & <- & Hc%list_elem_of_In).
    pose proof (Hne cid ms Hc) as Hms.
    pose proof (length_filter_bool (is_required mask) ms) as Hf.
    simpl. destruct (List.filter (is_required mask) ms) as [|x l] eqn:Ef;
      simpl in Hf |- *; rewrite ?length_map; simpl;
      (destruct ms; [done|simpl in *; lia]).
  - rewrite Hrp, sum_sizes, Hperm. apply length_seq.
  - rewrite Hrp, sum_required. apply Permutation_length, Permutation_filter_bool, Hperm.
  - rewrite Hrp, <- sum_kept. by apply Permutation_length.
  - transitivity (concat (map selected_ids
                    (map (λ c, (process_cluster names dist_matrix mask c).2) cls))).
    + rewrite <- !flat_map_concat_map. by apply Permutation_flat_map.
    + rewrite ids_of_kept. fold K. apply Permutation_map. by symmetry.
Qed.

Lemma selection_accounting_witness :
  length (linkage_average (squareform mat3)) + 1 = length names3 ∧
  let '(selected, records) :=
    select_at_threshold (linkage_average (squareform mat3)) 1 names3 mat3
      (required_mask names3 (priority_ids meta_a "G")) in
  Forall (λ r, 1 <= size r ∧ required_count r <= size r ∧
               length (selected_ids r) = Nat.max 1 (required_count r)) records ∧
  sum_list_with size records = length names3 ∧
  sum_list_with required_count records
    = length (List.filter (is_required (required_mask names3 (priority_ids meta_a "G")))
                (seq 0 (length names3))) ∧
  length selected = sum_list_with (λ r, Nat.max 1 (required_count r)) records ∧
  concat (map selected_ids records) ≡ₚ map (λ i, nth i names3 "") selected.
Proof.
  assert (H : length (linkage_average (squareform mat3)) + 1 = length names3)
    by (vm_compute; reflexivity).
  split; [exact H|].
  exact (selection_accounting (linkage_average (squareform mat3)) 1 names3 mat3
           (required_mask names3 (priority_ids meta_a "G")) H).
Defined.

(** ** The medoid of a cluster with NaN distances *)

Lemma vadd_fold_nan_acc (l : list val) : foldl vadd NaN l = NaN.
Proof. induction l as [|v l IH]; simpl; [done|]. exact IH. Qed.

Lemma row_sum_nan_fold (f : nat → val) (l : list nat) (acc : val) :
  (∃ b, b ∈ l ∧ is_nan (f b) = true) → foldl vadd acc (map f l) = NaN.
Proof.
  revert acc. induction l as [|b l IH]; intros acc (y & Hy & Hn); [inversion Hy|]. simpl.
  apply elem_of_cons in Hy as [<-|Hy].
  - destruct (f y); try done. destruct acc; apply vadd_fold_nan_acc.
  - apply IH. eauto.
Qed.

Lemma find_nan_prefix (qs : list Q) (rest : list val) (i : nat) :
  find_nan (map Num qs ++ NaN :: rest) i = Some (i + length qs).
Proof.
  revert i. induction qs as [|q qs IH]; intros i; simpl; [by rewrite Nat.add_0_r|].
  rewrite IH. f_equal. lia.
Qed.

(** X10: when the row of member [x] holds a NaN at a member's column
    (possible below the diagonal, which the NaN check does not read) and
    the rows of the members before [x] hold finite distances to the
    members, [medoid_index] returns [x], whatever the rows of the members
    after [x] hold: the NaN row sum is the [np.argmin]. *)
Theorem medoid_first_nan_row (m : matrix) (pre post : list nat) (x : nat) :
  (∀ a b, a ∈ pre → b ∈ pre ++ x :: post → is_finite (mat_get m a b) = true) →
  (∃ b, b ∈ pre ++ x :: post ∧ is_nan (mat_get m x b) = true) →
  medoid_index m (pre ++ x :: post) = x.
Proof.
  intros Hpre Hx.
  destruct (decide (length (pre ++ x :: post) = 1)) as [H1|H1].
  { destruct pre as [|a pre]; [|rewrite length_app in H1; simpl in H1; lia].
    destruct post as [|b post]; [done|simpl in H1; lia]. }
  rewrite medoid_index_long by (rewrite length_app in H1 |- *; simpl in *; lia).
  set (ms := pre ++ x :: post).
  assert (Hmap : map (row_sum m ms) ms =
                 map Num (map (λ a, foldl Qplus 0%Q (map (qget m a) ms)) pre) ++
                 NaN :: map (row_sum m ms) post).
  { unfold ms at 2. rewrite map_app. simpl. f_equal.
    - rewrite map_map. apply map_ext_in. intros a Ha%list_elem_of_In.
      unfold row_sum. apply row_sum_num. intros y Hy. by apply Hpre.
    - f_equal. unfold row_sum. by apply row_sum_nan_fold. }
  rewrite Hmap. unfold argmin. rewrite find_nan_prefix. simpl.
  rewrite !length_map. unfold ms. apply nth_middle.
Qed.

Lemma medoid_first_nan_row_witness :
  ((∀ a b, a ∈ [0%nat] → b ∈ [0%nat] ++ 1%nat :: [] → is_finite (mat_get nan_lower a b) = true) ∧
   (∃ b, b ∈ [0%nat] ++ 1%nat :: [] ∧ is_nan (mat_get nan_lower 1 b) = true)) ∧
  medoid_index nan_lower ([0%nat] ++ 1%nat :: []) = 1%nat.
Proof.
  assert (H1 : ∀ a b, a ∈ [0%nat] → b ∈ [0%nat] ++ 1%nat :: [] →
                      is_finite (mat_get nan_lower a b) = true).
  { intros a b Ha%list_elem_of_In Hb%list_elem_of_In.
    destruct Ha as [<-|[]], Hb as [<-|[<-|[]]]; reflexivity. }
  assert (H2 : ∃ b, b ∈ [0%nat] ++ 1%nat :: [] ∧ is_nan (mat_get nan_lower 1 b) = true).
  { exists 0%nat. split; [left|reflexivity]. }
  split; [split; [exact H1|exact H2]|].
  exact (medoid_first_nan_row nan_lower [0%nat] [] 1%nat H1 H2).
Defined.

(** ** The base id of a label *)

(** X11: [base_id] returns the part of the label before its first
    underscore: the result has no underscore, and the label is either the
    result itself (no underscore) or the result followed by an underscore
    and the rest of the label. *)
Theorem base_id_split (s : string) :
  lacks "_"%char (base_id s) ∧
  (s = base_id s ∨ ∃ rest, s = base_id s +:+ String "_"%char rest).
Proof.
  induction s as [|c s IH]; simpl.
  - split; [unfold lacks; simpl; intros H; inversion H|by left].
  - destruct (Ascii.eqb_spec c "_"%char) as [->|Hc].
    + split; [unfold lacks; simpl; intros H; inversion H|].
      right. exists s. reflexivity.
    + destruct IH as [Hl Hs]. split.
      * unfold lacks in *. simpl. intros [H|H]%elem_of_cons; [congruence|exact (Hl H)].
      * destruct Hs as [Hs|(rest & Hs)].
        -- left. by rewrite <- Hs.
        -- right. exists rest. rewrite str_app_cons. by rewrite <- Hs.
Qed.

(** ** The priority mask *)

Lemma mask_of_indices_lookup (m : list bool) (indices : list nat) (i : nat) :
  foldl (λ m idx, <[idx := true]> m) m indices !! i =
    if bool_decide (i ∈ indices ∧ i < length m) then Some true else m !! i.
Proof.
  revert m. induction indices as [|j js IH]; intros m; cbn [foldl].
  - case_bool_decide as H; [destruct H as [H _]; inversion H|done].
  - rewrite IH, length_insert.
    destruct (decide (i = j)) as [->|Hne].
    + destruct (decide (j < length m)) as [Hl|Hl].
      * rewrite list_lookup_insert_eq by done.
        rewrite (bool_decide_eq_true_2 (j ∈ j :: js ∧ j < length m))
          by (split; [left|done]).
        by destruct (bool_decide _).
      * rewrite list_insert_ge by lia.
        rewrite !bool_decide_eq_false_2 by lia. done.
    + rewrite list_lookup_insert_ne by done.
      assert (Hiff : (i ∈ j :: js ∧ i < length m) ↔ (i ∈ js ∧ i < length m))
        by (rewrite elem_of_cons; naive_solver).
      by rewrite (bool_decide_ext _ _ Hiff).
Qed.

Lemma required_indices_spec (names : list string) (pids : gset string) (i : nat) :
  i ∈ required_indices names pids ↔ i < length names ∧ base_id (nth i names "") ∈ pids.
Proof.
  unfold required_indices.
  rewrite list_elem_of_In, filter_In, in_seq, bool_decide_eq_true.
  split; intros [H1 H2]; split; try done; lia.
Qed.

(** X12: the mask [main] builds by setting [True] at the required indices
    in [np.zeros(n)] has one entry per name and is [True] exactly at the
    indices of the names whose [base_id] is a priority id. *)
Theorem required_mask_from_indices (names : list string) (pids : gset string) :
  mask_of_indices (length names) (required_indices names pids) = required_mask names pids ∧
  ∀ i, is_required (mask_of_indices (length names) (required_indices names pids)) i = true ↔
       i < length names ∧ base_id (nth i names "") ∈ pids.
Proof.
  assert (E : mask_of_indices (length names) (required_indices names pids)
              = required_mask names pids).
  { apply list_eq. intros i. unfold mask_of_indices.
    rewrite mask_of_indices_lookup, length_replicate.
    unfold required_mask. rewrite list_lookup_fmap.
    destruct (nth_lookup_or_length names i "") as [Hi|Hi].
    - rewrite Hi. simpl.
      assert (Hl : i < length names) by (apply lookup_lt_is_Some_1; by rewrite Hi).
      rewrite lookup_replicate_2 by done.
      case_bool_decide as H1; case_bool_decide as H2; try done; exfalso.
      + apply H2. apply required_indices_spec, H1.
      + apply H1. split; [|done]. by apply required_indices_spec.
    - rewrite (lookup_ge_None_2 names i Hi).
      case_bool_decide as H1; [lia|]. by apply lookup_replicate_None. }
  split; [exact E|]. intros i. rewrite E.
  destruct (decide (i < length names)) as [Hi|Hi].
  - rewrite is_required_mask by done. rewrite bool_decide_eq_true. tauto.
  - unfold is_required, required_mask.
    rewrite lookup_ge_None_2 by (rewrite length_map; lia). simpl.
    split; [done|lia].
Qed.

(** ** The ids file *)

(** X13: [write_ids] completes exactly when every index is below the
    number of names; the file then holds [names[idx]] followed by a newline
    for each index, in order.  An index past the end raises. *)
Theorem write_ids_lines (indices : list nat) (names : list string) :
  (Forall (λ i, i < length names) indices →
     write_ids indices names = (lines_text (map (λ i, nth i names "") indices), true)) ∧
  (∀ i, i ∈ indices → length names <= i → (write_ids indices names).2 = false).
Proof.
  induction indices as [|idx r [IH1 IH2]]; split.
  - done.
  - intros i Hi. inversion Hi.
  - intros Hall. inversion Hall as [|? ? Hidx Hr]; subst.
    simpl. destruct (nth_lookup_or_length names idx "") as [Hs|Hs]; [|lia].
    rewrite Hs. rewrite (IH1 Hr). reflexivity.
  - intros i Hi Hge. simpl.
    destruct (names !! idx) as [nm|] eqn:Hn; [|done].
    apply elem_of_cons in Hi as [->|Hi].
    + apply lookup_ge_None_2 in Hge. congruence.
    + specialize (IH2 i Hi Hge). destruct (write_ids r names) as [s ok]. exact IH2.
Qed.

(** ** The search without a cap below the distances *)

Lemma StronglySorted_snoc_lt (l : list Q) (s : Q) :
  StronglySorted Qlt l → (∀ q, q ∈ l → (q < s)%Q) → StronglySorted Qlt (l ++ [s]).
Proof.
  induction 1 as [|a l _ IH Hf]; intros H; simpl.
  - repeat constructor.
  - constructor.
    + apply IH. intros q Hq. apply H. by right.
    + apply Forall_app. split; [done|]. constructor; [apply H; left|constructor].
Qed.

Lemma StronglySorted_middle {A} (R : A → A → Prop) (pre post : list A) (x y : A) :
  StronglySorted R (pre ++ x :: post) → y ∈ post → R x y.
Proof.
  induction pre as [|a pre IH]; simpl; intros Hs Hy.
  - inversion Hs as [|? ? _ Hf]; subst. by eapply Forall_forall in Hf.
  - inversion Hs; subst. by apply IH.
Qed.

Lemma Qlt_plus_eps (x : Q) : (x < x + eps)%Q.
Proof.
  rewrite Qlt_minus_iff. setoid_replace (x + eps + - x)%Q with eps using relation Qeq by ring.
  vm_compute. reflexivity.
Qed.

Lemma sentinel_above (pd : list Q) (max_threshold : option Q) :
  pd ≠ [] → Sorted Qlt pd →
  match max_threshold with None => True | Some mt => ∀ q, q ∈ pd → (q <= mt)%Q end →
  StronglySorted Qlt
    (pd ++ [(match max_threshold with
             | Some mt => py_min (list_max pd) mt
             | None => list_max pd
             end + eps)%Q]).
Proof.
  intros Hne Hs Hmt. apply StronglySorted_snoc_lt.
  - apply Sorted_StronglySorted; [exact Qlt_trans|done].
  - intros q Hq. destruct (list_max_spec pd Hne) as [Hm Hle].
    assert (Hs' : (list_max pd == match max_threshold with
                                  | Some mt => py_min (list_max pd) mt
                                  | None => list_max pd
                                  end)%Q).
    { destruct max_threshold as [mt|]; [|reflexivity].
      rewrite py_min_eq. symmetry. apply Q.min_l. by apply Hmt. }
    apply Qlt_le_trans with (list_max pd + eps)%Q.
    + apply Qle_lt_trans with (list_max pd); [by apply Hle|apply Qlt_plus_eps].
    + apply Qplus_le_l, Qle_lteq. right. exact Hs'.
Qed.

(** The candidates are strictly increasing when [max_threshold] does not
    cut below a distance. *)
Lemma candidates_sorted (c : list val) (max_threshold : option Q) :
  match max_threshold with
  | None => True
  | Some mt => (0 <= mt)%Q ∧ ∀ q, Num q ∈ c → (0 < q)%Q → (q <= mt)%Q
  end →
  StronglySorted Qlt (candidate_thresholds c max_threshold).
Proof.
  intros Hmt. unfold candidate_thresholds.
  destruct (np_unique (positive_values c)) as [|a r] eqn:E; apply sentinel_above.
  - discriminate.
  - repeat constructor.
  - destruct max_threshold as [mt|]; [|done]. intros q Hq.
    apply elem_of_cons in Hq as [->|Hq]; [apply (proj1 Hmt)|inversion Hq].
  - discriminate.
  - rewrite <- E. apply np_unique_sorted.
  - destruct max_threshold as [mt|]; [|done]. intros q Hq. rewrite <- E in Hq.
    apply np_unique_from, positive_values_spec in Hq as [Hin Hpos].
    by apply (proj2 Hmt).
Qed.

(** X14: take distances below 2^34 (from there on, [max_distance + 1e-6]
    rounds back to [max_distance] in float64, while below it the float sum
    is above [max_distance], as the rational sum is).  When
    [max_threshold] is absent, or at least 0 and at least every positive
    distance of the strict upper triangle, the candidate thresholds are
    strictly increasing, and a run that returns a selection of at most
    [target] items returns the smallest candidate whose selection has at
    most [target] items. *)
Theorem run_smallest_fit_when_uncapped (linkage : list val → list zrow)
    (meta_map : gmap string string) (names : list string) (dist_matrix : matrix)
    (priority_group : string) (target : Z) (max_threshold : option Q) :
  (∀ q, Num q ∈ squareform dist_matrix → (q < inject_Z (2 ^ 34))%Q) →
  match max_threshold with
  | None => True
  | Some mt => (0 <= mt)%Q ∧ ∀ q, Num q ∈ squareform dist_matrix → (0 < q)%Q → (q <= mt)%Q
  end →
  let sel := sel_of linkage names dist_matrix
               (required_mask names (priority_ids meta_map priority_group)) in
  let cands := candidate_thresholds (squareform dist_matrix) max_threshold in
  StronglySorted Qlt cands ∧
  ∀ tr o, main_core linkage meta_map names dist_matrix priority_group target max_threshold
            = (tr, inr o) →
    (Z.of_nat (length (chosen_indices o)) <= target)%Z →
    chosen_threshold o ∈ cands ∧ feasible sel target (chosen_threshold o) = true ∧
    ∀ t, t ∈ cands → feasible sel target t = true → (chosen_threshold o <= t)%Q.
Proof.
  intros _ Hmt sel cands.
  assert (Hsort : StronglySorted Qlt cands) by (by apply candidates_sorted).
  split; [done|]. intros tr o Hrun Hfit.
  rewrite main_core_eq in Hrun. fold sel cands in Hrun.
  destruct (Z.ltb _ _); [done|].
  destruct (existsb is_nan (squareform dist_matrix)); [done|].
  destruct (linkage_rejects (squareform dist_matrix)); [done|].
  destruct (first_true_split (feasible sel target) cands)
    as [Hall|(pre & t0 & post & Hc & Hpre & Ht)].
  - rewrite (search_none sel target cands Hall) in Hrun.
    destruct (candidate_thresholds_last (squareform dist_matrix) max_threshold) as [s Hs].
    fold cands in Hs. rewrite Hs in Hrun. simpl in Hrun. injection Hrun as _ <-.
    exfalso. specialize (Hall s (last_Some_elem_of _ _ Hs)).
    unfold feasible in Hall. apply Z.leb_gt in Hall.
    unfold outcome_at in Hfit. cbn [chosen_indices] in Hfit. lia.
  - rewrite Hc, (search_first sel target pre t0 post Hpre Ht) in Hrun.
    injection Hrun as _ <-. unfold outcome_at. cbn [chosen_threshold].
    split; [rewrite Hc; apply elem_of_app; right; left|].
    split; [done|].
    intros t Ht' Hf'. rewrite Hc in Ht', Hsort.
    apply elem_of_app in Ht' as [Hp|Hp]; [rewrite (Hpre t Hp) in Hf'; discriminate|].
    apply elem_of_cons in Hp as [->|Hp]; [apply Qle_refl|].
    apply Qlt_le_weak. eapply StronglySorted_middle; eauto.
Qed.

Lemma run_smallest_fit_when_uncapped_witness :
  ((∀ q, Num q ∈ squareform mat3 → (q < inject_Z (2 ^ 34))%Q) ∧ True) ∧
  let sel := sel_of linkage_average names3 mat3 (required_mask names3 (priority_ids meta_g "G")) in
  let cands := candidate_thresholds (squareform mat3) None in
  StronglySorted Qlt cands ∧
  ∀ tr o, main_core linkage_average meta_g names3 mat3 "G" 1 None = (tr, inr o) →
    (Z.of_nat (length (chosen_indices o)) <= 1)%Z →
    chosen_threshold o ∈ cands ∧ feasible sel 1 (chosen_threshold o) = true ∧
    ∀ t, t ∈ cands → feasible sel 1 t = true → (chosen_threshold o <= t)%Q.
Proof.
  assert (H : ∀ q, Num q ∈ squareform mat3 → (q < inject_Z (2 ^ 34))%Q).
  { intros q Hq. vm_compute in Hq.
    repeat (apply elem_of_cons in Hq as [Hq|Hq]; [injection Hq as ->; vm_compute; reflexivity|]).
    inversion Hq. }
  split; [split; [exact H|exact I]|].
  exact (run_smallest_fit_when_uncapped linkage_average meta_g names3 mat3 "G" 1 None H I).
Defined.
